(** * Experimental continuous distributions: GEV, Chi, Maxwell, Generalized Normal

    A model of [pymc_experimental/distributions/continuous.py].

    The Python functions build element-wise formulas over tensors of
    [floatX] values.  The model works on the element-wise kernel: a tensor
    element is an extended real number ([floatX] below), the arithmetic of
    the tensor library is exact (no rounding, no overflow, one unsigned
    zero) and keeps the special values of the floating-point format
    (the two infinities and not-a-number), so that the branch structure of
    the formulas, their support checks and their parameter checks can be
    followed on it.  The rewrites the host applies to a graph before it
    runs are not modelled.  Sampling functions work on arrays with a shape
    and thread the random generator explicitly. *)

From Stdlib Require Import Reals Lra List String Bool ZArith Arith Lia.
Import ListNotations.
Local Open Scope R_scope.

(** ** Tensor elements *)

(** An element of a [floatX] tensor. *)
Inductive floatX : Type :=
| Real (r : R)
| PosInf
| NegInf
| NaN.

(** Order tests on the reals, as booleans. *)
Definition Rltb (a b : R) : bool := if Rlt_dec a b then true else false.
Definition Rleb (a b : R) : bool := if Rle_dec a b then true else false.
Definition Reqb (a b : R) : bool := if Req_dec_T a b then true else false.

(** The special functions of the tensor library that have no closed form
    over the reals here: the logarithm of the gamma function and the
    regularized lower incomplete gamma function.  They are used through
    their interface only. *)
Class SpecialFunctions : Type := {
  sf_gammaln : floatX -> floatX;
  sf_gammainc : floatX -> floatX -> floatX
}.

(** ** The element-wise operations of [pytensor.tensor] (imported as [pt]) *)
Module pt.

(** [-a] *)
Definition neg (a : floatX) : floatX :=
  match a with
  | Real r => Real (- r)
  | PosInf => NegInf
  | NegInf => PosInf
  | NaN => NaN
  end.

(** [a + b] *)
Definition add (a b : floatX) : floatX :=
  match a, b with
  | NaN, _ | _, NaN => NaN
  | Real x, Real y => Real (x + y)
  | PosInf, NegInf | NegInf, PosInf => NaN
  | PosInf, _ | _, PosInf => PosInf
  | NegInf, _ | _, NegInf => NegInf
  end.

(** [a - b] *)
Definition sub (a b : floatX) : floatX := add a (neg b).

(** The infinity with the sign of [x * i], for a real [x] and an
    infinity [i]; zero times infinity is not a number. *)
Definition scale_inf (x : R) (i : floatX) : floatX :=
  if Reqb x 0 then NaN else if Rltb 0 x then i else neg i.

(** [a * b] *)
Definition mul (a b : floatX) : floatX :=
  match a, b with
  | NaN, _ | _, NaN => NaN
  | Real x, Real y => Real (x * y)
  | Real x, i | i, Real x => scale_inf x i
  | PosInf, PosInf | NegInf, NegInf => PosInf
  | PosInf, NegInf | NegInf, PosInf => NegInf
  end.

(** [a / b] (true division); a non-zero real over zero is an infinity. *)
Definition true_div (a b : floatX) : floatX :=
  match a, b with
  | NaN, _ | _, NaN => NaN
  | Real x, Real y =>
      if Reqb y 0
      then (if Reqb x 0 then NaN else if Rltb 0 x then PosInf else NegInf)
      else Real (x / y)
  | Real _, _ => Real 0
  | i, Real y => if Rleb 0 y then i else neg i
  | _, _ => NaN
  end.

(** [pt.exp] *)
Definition exp (a : floatX) : floatX :=
  match a with
  | Real r => Real (Rtrigo_def.exp r)
  | PosInf => PosInf
  | NegInf => Real 0
  | NaN => NaN
  end.

(** [pt.log]: minus infinity at zero, not a number below. *)
Definition log (a : floatX) : floatX :=
  match a with
  | Real r => if Rltb 0 r then Real (ln r) else if Reqb r 0 then NegInf else NaN
  | PosInf => PosInf
  | NegInf => NaN
  | NaN => NaN
  end.

(** [pt.log1p]: the logarithm of [1 + a]. *)
Definition log1p (a : floatX) : floatX :=
  match a with
  | Real r =>
      if Rltb (-1) r then Real (ln (1 + r))
      else if Reqb r (-1) then NegInf else NaN
  | PosInf => PosInf
  | NegInf => NaN
  | NaN => NaN
  end.

(** [pt.abs] *)
Definition abs (a : floatX) : floatX :=
  match a with
  | Real r => Real (Rabs r)
  | PosInf | NegInf => PosInf
  | NaN => NaN
  end.

(** The sign of a real, as a real. *)
Definition Rsign (r : R) : R :=
  if Rltb 0 r then 1 else if Rltb r 0 then -1 else 0.

(** [pt.sign] *)
Definition sign (a : floatX) : floatX :=
  match a with
  | Real r => Real (Rsign r)
  | PosInf => Real 1
  | NegInf => Real (-1)
  | NaN => NaN
  end.

(** [pt.math.sqrt] *)
Definition sqrt (a : floatX) : floatX :=
  match a with
  | Real r => if Rleb 0 r then Real (R_sqrt.sqrt r) else NaN
  | PosInf => PosInf
  | NegInf => NaN
  | NaN => NaN
  end.

(** Whether a real is an integer, and whether it is an odd one. *)
Definition is_int (y : R) : bool := Reqb (IZR (Int_part y)) y.
Definition is_odd_int (y : R) : bool := is_int y && Z.odd (Int_part y).

(** [pt.pow]: the power function of the C library.  Anything to the
    power zero is one; a positive base is raised through the exponential;
    zero to a positive power is zero and to a negative one a pole; a
    negative base needs an integer exponent. *)
Definition pow (a b : floatX) : floatX :=
  match b with
  | Real y =>
      if Reqb y 0 then Real 1 else
      match a with
      | Real x =>
          if Rltb 0 x then Real (Rpower x y)
          else if Reqb x 0 then (if Rltb 0 y then Real 0 else PosInf)
          else if is_int y
               then Real ((if Z.odd (Int_part y) then -1 else 1) * Rpower (- x) y)
               else NaN
      | PosInf => if Rltb 0 y then PosInf else Real 0
      | NegInf =>
          if Rltb 0 y then (if is_odd_int y then NegInf else PosInf) else Real 0
      | NaN => NaN
      end
  | PosInf =>
      match a with
      | Real x =>
          if Reqb (Rabs x) 1 then Real 1
          else if Rltb (Rabs x) 1 then Real 0 else PosInf
      | PosInf | NegInf => PosInf
      | NaN => NaN
      end
  | NegInf =>
      match a with
      | Real x =>
          if Reqb (Rabs x) 1 then Real 1
          else if Rltb (Rabs x) 1 then PosInf else Real 0
      | PosInf | NegInf => Real 0
      | NaN => NaN
      end
  | NaN =>
      match a with
      | Real x => if Reqb x 1 then Real 1 else NaN
      | _ => NaN
      end
  end.

(** [pt.gammaln] and [pt.gammainc] *)
Definition gammaln `{SpecialFunctions} : floatX -> floatX := sf_gammaln.
Definition gammainc `{SpecialFunctions} : floatX -> floatX -> floatX := sf_gammainc.

(** [pt.lt] and [pt.gt]: comparisons; any comparison with not-a-number
    is false. *)
Definition lt (a b : floatX) : bool :=
  match a, b with
  | NaN, _ | _, NaN => false
  | Real x, Real y => Rltb x y
  | NegInf, NegInf | PosInf, _ => false
  | NegInf, _ => true
  | Real _, PosInf => true
  | Real _, NegInf => false
  end.

Definition gt (a b : floatX) : bool := lt b a.

(** [pt.and_] *)
Definition and_ (a b : bool) : bool := a && b.

(** [pt.switch(cond, a, b)]: selects between two computed values. *)
Definition switch {A : Type} (cond : bool) (ift iff : A) : A :=
  if cond then ift else iff.

(** The default tolerances of [pt.isclose]. *)
Definition rtol : R := 1e-5.
Definition atol : R := 1e-8.

(** [pt.isclose(a, b)]: [|a - b| <= atol + rtol * |b|] on finite values;
    equal infinities are close; not-a-number is close to nothing. *)
Definition isclose (a b : floatX) : bool :=
  match a, b with
  | Real x, Real y => Rleb (Rabs (x - y)) (atol + rtol * Rabs y)
  | PosInf, PosInf | NegInf, NegInf => true
  | _, _ => false
  end.

End pt.

Declare Scope tensor_scope.
Delimit Scope tensor_scope with T.
Bind Scope tensor_scope with floatX.
Notation "a + b" := (pt.add a b) : tensor_scope.
Notation "a - b" := (pt.sub a b) : tensor_scope.
Notation "a * b" := (pt.mul a b) : tensor_scope.
Notation "a / b" := (pt.true_div a b) : tensor_scope.
Notation "- a" := (pt.neg a) : tensor_scope.
Notation "a >? b" := (pt.gt a b) (at level 70, no associativity) : tensor_scope.
Notation "a <? b" := (pt.lt a b) (at level 70, no associativity) : tensor_scope.

(** [np.inf] *)
Definition np_inf : floatX := PosInf.

(** ** Arrays *)
Module np.

(** An array: its shape and its elements in row-major order. *)
Record ndarray (A : Type) : Type := mk_ndarray {
  shape : list nat;
  data : list A
}.
Arguments mk_ndarray {A} shape data.
Arguments shape {A} _.
Arguments data {A} _.

(** The number of elements of an array of a given shape. *)
Definition prod (s : list nat) : nat := fold_right Nat.mul 1%nat s.

(** A zero-dimensional array. *)
Definition scalar {A : Type} (x : A) : ndarray A := mk_ndarray [] [x].

(** [np.full] *)
Definition full {A : Type} (s : list nat) (x : A) : ndarray A :=
  mk_ndarray s (repeat x (prod s)).

(** Element-wise application of a unary operation. *)
Definition map {A B : Type} (f : A -> B) (a : ndarray A) : ndarray B :=
  mk_ndarray (shape a) (List.map f (data a)).

(** Broadcasting of two shapes, read from their last dimension: equal
    dimensions agree, a dimension of one stretches, a missing dimension is
    taken from the other shape. *)
Fixpoint broadcast_rev (r1 r2 : list nat) : option (list nat) :=
  match r1, r2 with
  | [], r | r, [] => Some r
  | d1 :: t1, d2 :: t2 =>
      match broadcast_rev t1 t2 with
      | None => None
      | Some t =>
          if (d1 =? d2)%nat then Some (d1 :: t)
          else if (d1 =? 1)%nat then Some (d2 :: t)
          else if (d2 =? 1)%nat then Some (d1 :: t)
          else None
      end
  end.

(** [np.broadcast_shapes] *)
Definition broadcast_shapes (s1 s2 : list nat) : option (list nat) :=
  option_map (@rev nat) (broadcast_rev (rev s1) (rev s2)).

(** All the indices of an array of shape [s], in row-major order. *)
Fixpoint indices (s : list nat) : list (list nat) :=
  match s with
  | [] => [[]]
  | d :: s' => flat_map (fun i => List.map (cons i) (indices s')) (seq 0 d)
  end.

(** The position of the element of index [idx] in the row-major data of
    an array of shape [s]. *)
Definition ravel (s idx : list nat) : nat :=
  fold_left (fun acc di => (acc * fst di + snd di)%nat) (combine s idx) 0%nat.

(** The index, in an array of shape [s], of the element that a
    broadcast of it shows at index [idx]: the leading dimensions of [idx]
    that [s] lacks are dropped, and a stretched dimension reads its only
    element. *)
Definition project (s idx : list nat) : list nat :=
  List.map (fun di => if (fst di =? 1)%nat then 0%nat else snd di)
    (combine s (skipn (List.length idx - List.length s) idx)).

Definition shape_eqb (s1 s2 : list nat) : bool :=
  if list_eq_dec Nat.eq_dec s1 s2 then true else false.

(** [np.broadcast_to]: [None] when the array does not broadcast to the
    target shape. *)
Definition broadcast_to {A : Type} (a : ndarray A) (target : list nat)
  : option (ndarray A) :=
  match broadcast_shapes (shape a) target with
  | Some s =>
      if shape_eqb s target
      then Some (mk_ndarray target
                   (flat_map
                      (fun idx =>
                         match nth_error (data a) (ravel (shape a) (project (shape a) idx)) with
                         | Some x => [x]
                         | None => []
                         end)
                      (indices target)))
      else None
  | None => None
  end.

(** Element-wise application of a binary operation, with broadcasting;
    [None] when the shapes do not broadcast. *)
Definition map2 {A B C : Type} (f : A -> B -> C) (a : ndarray A) (b : ndarray B)
  : option (ndarray C) :=
  match broadcast_shapes (shape a) (shape b) with
  | Some s =>
      match broadcast_to a s, broadcast_to b s with
      | Some a', Some b' =>
          Some (mk_ndarray s
                  (List.map (fun xy => f (fst xy) (snd xy))
                     (combine (data a') (data b'))))
      | _, _ => None
      end
  | None => None
  end.

(** [np.all] *)
Definition all (a : ndarray bool) : bool := forallb (fun c => c) (data a).

(** Element-wise [a > c] against a constant. *)
Definition greater_const (a : ndarray floatX) (c : floatX) : ndarray bool :=
  map (fun x => pt.gt x c) a.

(** Element-wise negation, square root and product. *)
Definition negative (a : ndarray floatX) : ndarray floatX := map pt.neg a.
Definition sqrt (a : ndarray floatX) : ndarray floatX := map pt.sqrt a.
Definition multiply (a b : ndarray floatX) : option (ndarray floatX) :=
  map2 pt.mul a b.

(** The common shape of a list of shapes. *)
Fixpoint broadcast_shapes_list (l : list (list nat)) : option (list nat) :=
  match l with
  | [] => Some []
  | s :: l' =>
      match broadcast_shapes_list l' with
      | Some s' => broadcast_shapes s s'
      | None => None
      end
  end.

(** All the elements of a list of options, when none is missing. *)
Fixpoint sequence {A : Type} (l : list (option A)) : option (list A) :=
  match l with
  | [] => Some []
  | Some x :: l' =>
      match sequence l' with
      | Some xs => Some (x :: xs)
      | None => None
      end
  | None :: _ => None
  end.

(** [np.broadcast_arrays]: the arrays, each broadcast to their common
    shape; [None] when the shapes do not broadcast. *)
Definition broadcast_arrays {A : Type} (l : list (ndarray A))
  : option (list (ndarray A)) :=
  match broadcast_shapes_list (List.map shape l) with
  | Some s => sequence (List.map (fun a => broadcast_to a s) l)
  | None => None
  end.

End np.

(** An array of [floatX], and the [size] argument of the sampling
    functions: a shape, or [None]. *)
Definition array : Type := np.ndarray floatX.
Definition size_t : Type := option (list nat).

(** [rv_size_is_none]: no size, which reaches the distributions as the
    empty size vector. *)
Definition rv_size_is_none (size : size_t) : bool :=
  match size with
  | None | Some [] => true
  | Some (_ :: _) => false
  end.

(** The sample shape a distribution with the parameter [a] resolves a size
    to: the size, or the shape of [a] when the size is none. *)
Definition resolved_shape (a : array) (size : size_t) : list nat :=
  match size with
  | Some (d :: s) => d :: s
  | _ => np.shape a
  end.

(** ** The constraint checker *)

(** The outcome of an evaluation: its value, the domain violation raised
    by a check, with its message, or the failure of an operation on
    arguments whose shapes or number do not fit. *)
Inductive result (A : Type) : Type :=
| Ok (v : A)
| ParameterValueError (msg : string)
| ValueError
| TypeError.
Arguments Ok {A} v.
Arguments ParameterValueError {A} msg.
Arguments ValueError {A}.
Arguments TypeError {A}.

(** Modelled from the spec: [CheckParameterValue] belongs to the host
    toolkit ([pymc.logprob.utils]); the spec's Constraint Checker yields the
    expression unchanged when the predicate holds and signals a domain
    violation carrying the message otherwise, when the expression is
    evaluated. *)
Definition CheckParameterValue {A : Type} (msg : string) (value : A) (cond : bool)
  : result A :=
  if cond then Ok value else ParameterValueError msg.

(** Modelled from the spec: [check_parameters] belongs to the host toolkit
    ([pymc.distributions.dist_math]); it accepts one or more predicates and
    checks the result against their conjunction. *)
Definition check_parameters {A : Type} (expr : A) (conditions : list bool)
  (msg : string) : result A :=
  CheckParameterValue msg expr (forallb (fun c => c) conditions).

Definition bind {A B : Type} (m : result A) (k : A -> result B) : result B :=
  match m with
  | Ok v => k v
  | ParameterValueError msg => ParameterValueError msg
  | ValueError => ValueError
  | TypeError => TypeError
  end.

Notation "x <- m ;; k" := (bind m (fun x => k))
  (at level 61, m at next level, right associativity).

(** [pt.full(size, fill_value)]: the fill value broadcast to the shape
    [size]; a fill value with more dimensions than the shape is refused as
    ill typed, one whose dimensions do not fit as a wrong value. *)
Definition pt_full (size : size_t) (fill_value : array) : result array :=
  match size with
  | Some s =>
      if Nat.ltb (List.length s) (List.length (np.shape fill_value))
      then TypeError
      else
        match np.broadcast_to fill_value s with
        | Some a => Ok a
        | None => ValueError
        end
  | None => TypeError
  end.

(** ** Generalized Extreme Value *)
Module GenExtreme.

(** [GenExtreme.dist]: the parameter list handed to the host; the
    [scipy] flag flips the sign of the shape once.  Nothing is checked
    here. *)
Definition dist (mu sigma xi : floatX) (scipy : bool) : list floatX :=
  let xi := if scipy then (- xi)%T else xi in
  [mu; sigma; xi].

Definition msg : string := "sigma > 0 or -1 < xi < 1".

(** [GenExtreme.logp] *)
Definition logp (value mu sigma xi : floatX) : result floatX :=
  let scaled := ((value - mu) / sigma)%T in
  let logp_expression :=
    pt.switch (pt.isclose xi (Real 0))
      (- pt.log sigma - scaled - pt.exp (- scaled))%T
      (- pt.log sigma
       - ((xi + Real 1) / xi) * pt.log1p (xi * scaled)
       - pt.pow (Real 1 + xi * scaled) (Real (-1) / xi))%T in
  let logp :=
    pt.switch (pt.gt (Real 1 + xi * scaled)%T (Real 0))
      logp_expression (- np_inf)%T in
  check_parameters logp
    [pt.gt sigma (Real 0); pt.and_ (pt.gt xi (Real (-1))) (pt.lt xi (Real 1))]
    msg.

(** [GenExtreme.logcdf] *)
Definition logcdf (value mu sigma xi : floatX) : result floatX :=
  let scaled := ((value - mu) / sigma)%T in
  let logc_expression :=
    pt.switch (pt.isclose xi (Real 0))
      (- pt.exp (- scaled))%T
      (- pt.pow (Real 1 + xi * scaled) (Real (-1) / xi))%T in
  let logc :=
    pt.switch (pt.gt (Real 1 + xi * (value - mu) / sigma)%T (Real 0))
      logc_expression (- np_inf)%T in
  check_parameters logc
    [pt.gt sigma (Real 0); pt.and_ (pt.gt xi (Real (-1))) (pt.lt xi (Real 1))]
    msg.

(** [GenExtreme.moment], for scalar parameters: the mode, filled to the
    requested size when there is one. *)
Definition moment (size : size_t) (mu sigma xi : floatX) : result array :=
  let mode :=
    pt.switch (pt.isclose xi (Real 0)) mu
      (mu + sigma * (pt.pow (Real 1 + xi) (- xi) - Real 1) / xi)%T in
  let mode := np.scalar mode in
  if negb (rv_size_is_none size) then pt_full size mode else Ok mode.

End GenExtreme.

(** ** Generalized Normal *)
Module GeneralizedNormal.

Definition msg : string := "alpha > 0, beta > 0".

(** [GeneralizedNormal.dist]: the parameter list handed to the host. *)
Definition dist (mu alpha beta : floatX) : list floatX := [mu; alpha; beta].

(** [GeneralizedNormal.moment]: the location, broadcast against the
    other two parameters and filled to the requested size when there is
    one. *)
Definition moment (size : size_t) (mu alpha beta : array) : result array :=
  match np.broadcast_arrays [mu; alpha; beta] with
  | Some (moment :: _) =>
      if negb (rv_size_is_none size) then pt_full size moment else Ok moment
  | _ => ValueError
  end.

Section WithSpecialFunctions.
Context `{SpecialFunctions}.

(** [GeneralizedNormal.logp] *)
Definition logp (value mu alpha beta : floatX) : result floatX :=
  let z := ((value - mu) / alpha)%T in
  let lp :=
    (pt.log (Real 0.5 * beta) - pt.log alpha
     - pt.gammaln (Real 1 / beta) - pt.pow (pt.abs z) beta)%T in
  check_parameters lp [pt.gt alpha (Real 0); pt.gt beta (Real 0)] msg.

(** [GeneralizedNormal.logcdf]: the logarithm of the computed CDF,
    returned as it is. *)
Definition logcdf (value mu alpha beta : floatX) : result floatX :=
  let z := pt.abs ((value - mu) / alpha)%T in
  let c := pt.sign (value - mu)%T in
  let cdf :=
    (Real 0.5 + Real 0.5 * pt.sign (value - mu)
                * pt.gammainc (Real 1 / beta) (pt.pow z beta))%T in
  Ok (pt.log cdf).

End WithSpecialFunctions.

End GeneralizedNormal.

(** ** Random variates *)

(** The variate generators of the numerical libraries, over a generator
    state [rng]: each consumes the state it is given and returns the draws
    with the advanced state.  They are used through their interface only. *)
Class RandomVariates (rng : Type) : Type := {
  genextreme_variates :
    rng -> forall (c loc scale : array) (size : size_t), array * rng;
  gennorm_variates :
    rng -> forall (beta loc scale : array) (size : size_t), array * rng;
  chisquare_variates :
    rng -> forall (df : array) (size : size_t), array * rng
}.

(** [scipy.stats]: an [rvs] call draws from the generator given as
    [random_state], and from the process-wide generator of numpy when none
    is given. *)
Module stats.
Section WithVariates.
Context {rng : Type} `{RandomVariates rng}.

Definition check_random_state (np_random : rng) (seed : option rng) : rng :=
  match seed with
  | None => np_random
  | Some r => r
  end.

Definition genextreme_rvs (np_random : rng) (c loc scale : array)
  (random_state : option rng) (size : size_t) : array * rng :=
  genextreme_variates (check_random_state np_random random_state) c loc scale size.

Definition gennorm_rvs (np_random : rng) (beta loc scale : array)
  (size : size_t) (random_state : option rng) : array * rng :=
  gennorm_variates (check_random_state np_random random_state) beta loc scale size.

End WithVariates.
End stats.

(** [GenExtremeRV] *)
Module GenExtremeRV.
Section WithVariates.
Context {rng : Type} `{RandomVariates rng}.

(** [GenExtremeRV.rng_fn]; [np_random] is the process-wide generator,
    which the function does not name. *)
Definition rng_fn (np_random : rng) (r : rng) (mu sigma xi : array)
  (size : size_t) : array * rng :=
  stats.genextreme_rvs np_random (np.negative xi) mu sigma (Some r) size.

End WithVariates.
End GenExtremeRV.

(** [GeneralizedNormalRV] *)
Module GeneralizedNormalRV.
Section WithVariates.
Context {rng : Type} `{RandomVariates rng}.

(** [GeneralizedNormalRV.rng_fn] *)
Definition rng_fn (np_random : rng) (r : rng) (loc alpha beta : array)
  (size : size_t) : array * rng :=
  stats.gennorm_rvs np_random beta loc alpha size (Some r).

End WithVariates.
End GeneralizedNormalRV.

(** ** Derived distributions *)

(** A random tensor: what a draw from it returns for a generator state. *)
Definition random_tensor (rng : Type) : Type := rng -> result (array * rng).

(** Keyword arguments: a dictionary from names to values of a type [V],
    in insertion order. *)
Definition kwargs (V : Type) : Type := list (string * V).

(** [kw[k]], when [k] is a key. *)
Fixpoint kw_get {V : Type} (k : string) (kw : kwargs V) : option V :=
  match kw with
  | [] => None
  | (k', v) :: kw' => if String.eqb k k' then Some v else kw_get k kw'
  end.

(** [k in kw] *)
Definition kw_contains {V : Type} (k : string) (kw : kwargs V) : bool :=
  match kw_get k kw with
  | Some _ => true
  | None => false
  end.

(** [kw.setdefault(k, v)]: adds the key with the value [v] unless the key
    is there. *)
Definition setdefault {V : Type} (k : string) (v : V) (kw : kwargs V) : kwargs V :=
  if kw_contains k kw then kw else kw ++ [(k, v)].

(** [CustomDist] belongs to the host toolkit; a call of it is represented
    by the arguments it receives: the name of the variable, the parameters,
    the function that builds the distribution, the class name and the
    remaining keyword arguments. *)
Record CustomDistCall (rng V : Type) : Type := CustomDist {
  cd_name : string;
  cd_dist_params : list array;
  cd_dist : array -> size_t -> random_tensor rng;
  cd_class_name : string;
  cd_kwargs : kwargs V
}.
Arguments CustomDist {rng V} _ _ _ _ _.
Arguments cd_name {rng V} _.
Arguments cd_dist_params {rng V} _.
Arguments cd_dist {rng V} _.
Arguments cd_class_name {rng V} _.
Arguments cd_kwargs {rng V} _.

(** The call [CustomDist(name, *params, dist=d, class_name=c, **kw)]: a
    keyword that [kw] names again is refused, as in every call. *)
Definition CustomDist_new {rng V : Type} (name : string) (params : list array)
  (dist : array -> size_t -> random_tensor rng) (class_name : string)
  (kw : kwargs V) : result (CustomDistCall rng V) :=
  if kw_contains "dist" kw || kw_contains "class_name" kw
  then TypeError
  else Ok (CustomDist name params dist class_name kw).

(** [ChiSquared.dist] of the host toolkit: one draw of the chi-squared
    variate generator. *)
Module ChiSquared.
Section WithVariates.
Context {rng : Type} `{RandomVariates rng}.

Definition dist (nu : array) (size : size_t) : random_tensor rng :=
  fun r => Ok (chisquare_variates r nu size).

End WithVariates.
End ChiSquared.

(** [Chi] *)
Module Chi.
Section WithVariates.
Context {rng : Type} `{RandomVariates rng}.

(** [Chi.chi_dist]: the square root of a chi-squared variate. *)
Definition chi_dist (nu : array) (size : size_t) : random_tensor rng :=
  fun r =>
    xr <- ChiSquared.dist nu size r ;;
    Ok (np.sqrt (fst xr), snd xr).

(** [Chi.dist]: the custom distribution built from [chi_dist]. *)
Definition dist (nu : array) (size : size_t) : random_tensor rng :=
  chi_dist nu size.

Section WithKwargs.
Context {V : Type} (transforms_log : V).

(** [Chi.__new__]: a variable that is not observed is given the log
    transform unless the caller names a transform. *)
Definition __new__ (name : string) (nu : array) (kw : kwargs V)
  : result (CustomDistCall rng V) :=
  let kw :=
    if negb (kw_contains "observed" kw)
    then setdefault "transform" transforms_log kw
    else kw in
  CustomDist_new name [nu] chi_dist "Chi" kw.

End WithKwargs.

End WithVariates.
End Chi.

(** [Maxwell] *)
Module Maxwell.
Section WithVariates.
Context {rng : Type} `{RandomVariates rng}.

Definition msg : string := "a > 0".

(** [Maxwell.maxwell_dist] *)
Definition maxwell_dist (a : array) (size : size_t) : random_tensor rng :=
  fun r =>
    let size := if rv_size_is_none size then Some (np.shape a) else size in
    a <- CheckParameterValue msg a (np.all (np.greater_const a (Real 0))) ;;
    xr <- Chi.dist (np.scalar (Real 3)) size r ;;
    match np.multiply (fst xr) a with
    | Some draw => Ok (draw, snd xr)
    | None => ValueError
    end.

(** [Maxwell.dist]: the custom distribution built from [maxwell_dist]. *)
Definition dist (a : array) (size : size_t) : random_tensor rng :=
  maxwell_dist a size.

(** [Maxwell.__new__] *)
Definition __new__ {V : Type} (name : string) (a : array) (kw : kwargs V)
  : result (CustomDistCall rng V) :=
  CustomDist_new name [a] maxwell_dist "Maxwell" kw.

End WithVariates.
End Maxwell.

(** ** The sampling interface *)

(** The distribution variants of the library. *)
Inductive variant : Type := GEV | ChiV | MaxwellV | GenNormal.

(** Modelled from the spec: the host's sample interface,
    [sample(rng_state, parameters..., shape)], dispatching each variant to
    the sampling function the library defines for it; a parameter list of
    the wrong length is refused.  [np_random] is the process-wide generator
    of numpy, which is part of the state of every call. *)
Definition sample {rng : Type} `{RandomVariates rng} (np_random : rng)
  (v : variant) (params : list array) (size : size_t) (r : rng)
  : result (array * rng) :=
  match v, params with
  | GEV, [mu; sigma; xi] => Ok (GenExtremeRV.rng_fn np_random r mu sigma xi size)
  | ChiV, [nu] => Chi.dist nu size r
  | MaxwellV, [a] => Maxwell.dist a size r
  | GenNormal, [loc; alpha; beta] =>
      Ok (GeneralizedNormalRV.rng_fn np_random r loc alpha beta size)
  | _, _ => TypeError
  end.

(** ** The formulas of the specification *)

(** [b ^ e] over the reals, for a base [b >= 0] and an exponent [e > 0]. *)
Definition Rpow0 (b e : R) : R := if Reqb b 0 then 0 else Rpower b e.

(** A dimension [d] of an array fits a dimension [dt] of the target of a
    broadcast when it is equal to it or is one. *)
Definition fits (d dt : nat) : Prop := d = dt \/ d = 1%nat.

(** An array is well formed when it has as many elements as its shape
    says. *)
Definition well_formed {A : Type} (a : np.ndarray A) : Prop :=
  List.length (np.data a) = np.prod (np.shape a).

(** ** Closed forms used in the further properties *)



(** The mode of the GEV. *)
Definition gev_mode (mu sigma xi : R) : R :=
  if Rleb (Rabs xi) pt.atol then mu
  else mu + sigma * (Rpower (1 + xi) (- xi) - 1) / xi.

(** A finite value that is not negative, and one that is positive. *)
Definition nonneg_real (v : floatX) : Prop := exists r : R, v = Real r /\ 0 <= r.

(** ** Instances for the examples *)

(** Special functions that are constant, and variate generators that
    count their calls and return the array of the requested shape (of the
    shape of their first parameter when none is requested) filled with
    ones; they stand for the libraries in the closed examples. *)
Definition constant_special_functions : SpecialFunctions :=
  {| sf_gammaln := fun _ => Real 0;
     sf_gammainc := fun _ _ => Real 0 |}.

Definition ones (p : array) (size : size_t) : array :=
  np.full (match size with None => np.shape p | Some s => s end) (Real 1).

Definition counting_variates : RandomVariates nat :=
  {| genextreme_variates := fun r c _ _ size => (ones c size, S r);
     gennorm_variates := fun r beta _ _ size => (ones beta size, S r);
     chisquare_variates := fun r df size => (ones df size, S r) |}.

(** * Properties *)

(** ** Deciding the order tests *)

Lemma Rltb_true (a b : R) : a < b -> Rltb a b = true.
Proof. intros h; unfold Rltb; destruct (Rlt_dec a b); [reflexivity | contradiction]. Qed.

Lemma Rltb_false (a b : R) : b <= a -> Rltb a b = false.
Proof. intros h; unfold Rltb; destruct (Rlt_dec a b); [lra | reflexivity]. Qed.

Lemma Rleb_true (a b : R) : a <= b -> Rleb a b = true.
Proof. intros h; unfold Rleb; destruct (Rle_dec a b); [reflexivity | contradiction]. Qed.

Lemma Rleb_false (a b : R) : b < a -> Rleb a b = false.
Proof. intros h; unfold Rleb; destruct (Rle_dec a b); [lra | reflexivity]. Qed.

Lemma Reqb_true (a b : R) : a = b -> Reqb a b = true.
Proof. intros h; unfold Reqb; destruct (Req_dec_T a b); [reflexivity | contradiction]. Qed.

Lemma Reqb_false (a b : R) : a <> b -> Reqb a b = false.
Proof. intros h; unfold Reqb; destruct (Req_dec_T a b); [contradiction | reflexivity]. Qed.

(** ** The operations on finite values *)

Lemma sub_Real (a b : R) : (Real a - Real b)%T = Real (a - b).
Proof. reflexivity. Qed.

Lemma div_Real (a b : R) : b <> 0 -> (Real a / Real b)%T = Real (a / b).
Proof. intros h; unfold pt.true_div; now rewrite Reqb_false. Qed.

Lemma log_Real (a : R) : 0 < a -> pt.log (Real a) = Real (ln a).
Proof. intros h; unfold pt.log; now rewrite Rltb_true. Qed.

Lemma log1p_Real (a : R) : -1 < a -> pt.log1p (Real a) = Real (ln (1 + a)).
Proof. intros h; unfold pt.log1p; now rewrite Rltb_true. Qed.

Lemma pow_Real_pos (a b : R) :
  0 < a -> b <> 0 -> pt.pow (Real a) (Real b) = Real (Rpower a b).
Proof. intros ha hb; unfold pt.pow; rewrite Reqb_false by assumption; now rewrite Rltb_true. Qed.

Lemma gt_Real (a b : R) : pt.gt (Real a) (Real b) = Rltb b a.
Proof. reflexivity. Qed.

Lemma isclose_zero (a : R) : pt.isclose (Real a) (Real 0) = Rleb (Rabs a) pt.atol.
Proof.
  unfold pt.isclose. rewrite Rabs_R0, Rminus_0_r.
  replace (pt.atol + pt.rtol * 0) with pt.atol by ring. reflexivity.
Qed.

Lemma atol_pos : 0 < pt.atol.
Proof. unfold pt.atol; lra. Qed.

Lemma not_close_nonzero (a : R) : pt.atol < Rabs a -> a <> 0.
Proof.
  intros h e; subst a. rewrite Rabs_R0 in h. pose proof atol_pos; lra.
Qed.

(** The parameter check of the GEV passes on its declared domain. *)
Lemma gev_check_passes (sigma xi : R) :
  0 < sigma -> -1 < xi < 1 ->
  forallb (fun c => c)
    [pt.gt (Real sigma) (Real 0);
     pt.and_ (pt.gt (Real xi) (Real (-1))) (pt.lt (Real xi) (Real 1))] = true.
Proof.
  intros hs [h1 h2]. cbn. now rewrite !Rltb_true.
Qed.

(** ** GEV log-density *)

(** C2. For a value [x] and parameters [mu], [sigma > 0], [-1 < xi < 1],
    with [z = (x - mu) / sigma]: inside the support ([1 + xi z > 0]) the
    log-density is [- log sigma - z - exp (- z)] when [xi] is within the
    tolerance of zero and
    [- log sigma - ((xi + 1) / xi) log1p (xi z) - (1 + xi z) ^ (- 1 / xi)]
    otherwise; and wherever [1 + xi z <= 0] it is minus infinity, in both
    branches. *)
Theorem GenExtreme_logp_closed_form (x mu sigma xi : R) :
  0 < sigma -> -1 < xi < 1 ->
  let z := (x - mu) / sigma in
  (0 < 1 + xi * z -> Rabs xi <= pt.atol ->
   GenExtreme.logp (Real x) (Real mu) (Real sigma) (Real xi)
   = Ok (Real (- ln sigma - z - exp (- z))))
  /\ (0 < 1 + xi * z -> pt.atol < Rabs xi ->
      GenExtreme.logp (Real x) (Real mu) (Real sigma) (Real xi)
      = Ok (Real (- ln sigma - ((xi + 1) / xi) * ln (1 + xi * z)
                  - Rpower (1 + xi * z) (- 1 / xi))))
  /\ (1 + xi * z <= 0 ->
      GenExtreme.logp (Real x) (Real mu) (Real sigma) (Real xi) = Ok NegInf).
Proof.
  intros hs hxi z.
  assert (hsig : sigma <> 0) by lra.
  unfold GenExtreme.logp, check_parameters, CheckParameterValue.
  rewrite (gev_check_passes sigma xi hs hxi).
  rewrite sub_Real, (div_Real _ _ hsig). fold z.
  change (Real xi * Real z)%T with (Real (xi * z)).
  change (Real 1 + Real (xi * z))%T with (Real (1 + xi * z)).
  rewrite gt_Real, isclose_zero.
  repeat split.
  - intros hsup hclose.
    rewrite Rltb_true by assumption. rewrite Rleb_true by assumption.
    unfold pt.switch. rewrite (log_Real _ hs). reflexivity.
  - intros hsup hfar.
    pose proof (not_close_nonzero xi hfar) as hx0.
    rewrite Rltb_true by assumption. rewrite Rleb_false by assumption.
    unfold pt.switch.
    rewrite (log_Real _ hs).
    change (Real xi + Real 1)%T with (Real (xi + 1)).
    rewrite (div_Real _ _ hx0), (div_Real _ _ hx0).
    rewrite log1p_Real by lra.
    rewrite pow_Real_pos; [reflexivity | assumption | ].
    unfold Rdiv. apply Rmult_integral_contrapositive_currified.
    + lra.
    + now apply Rinv_neq_0_compat.
  - intros hout.
    rewrite Rltb_false by assumption. reflexivity.
Qed.

Lemma GenExtreme_logp_closed_form_witness :
  GenExtreme.logp (Real 1) (Real 0) (Real 1) (Real 0)
  = Ok (Real (- ln 1 - (1 - 0) / 1 - exp (- ((1 - 0) / 1))))
  /\ GenExtreme.logp (Real 1) (Real 0) (Real 1) (Real (1 / 2))
     = Ok (Real (- ln 1 - ((1 / 2 + 1) / (1 / 2)) * ln (1 + 1 / 2 * ((1 - 0) / 1))
                 - Rpower (1 + 1 / 2 * ((1 - 0) / 1)) (- 1 / (1 / 2))))
  /\ GenExtreme.logp (Real (-3)) (Real 0) (Real 1) (Real (1 / 2)) = Ok NegInf.
Proof.
  split; [ | split ].
  - apply (GenExtreme_logp_closed_form 1 0 1 0); try lra.
    rewrite Rabs_R0. unfold pt.atol. lra.
  - apply (GenExtreme_logp_closed_form 1 0 1 (1 / 2)); try lra.
    rewrite Rabs_pos_eq by lra. unfold pt.atol. lra.
  - apply (GenExtreme_logp_closed_form (-3) 0 1 (1 / 2)); lra.
Defined.

(** ** GEV log-CDF *)

(** The support test of [logcdf] is written on [xi * (value - mu) / sigma];
    over the reals it is the test on [xi * z]. *)
Lemma logcdf_support_test (x mu sigma xi : R) :
  sigma <> 0 ->
  (Real 1 + Real xi * (Real x - Real mu) / Real sigma)%T
  = Real (1 + xi * ((x - mu) / sigma)).
Proof.
  intros hsig. rewrite sub_Real.
  change (Real xi * Real (x - mu))%T with (Real (xi * (x - mu))).
  rewrite (div_Real _ _ hsig).
  change (Real 1 + Real (xi * (x - mu) / sigma))%T
    with (Real (1 + xi * (x - mu) / sigma)).
  f_equal. unfold Rdiv. ring.
Qed.

(** Outside the set [1 + xi z > 0] the log-CDF is minus infinity. *)
Lemma logcdf_outside (x mu sigma xi : R) :
  0 < sigma -> -1 < xi < 1 ->
  1 + xi * ((x - mu) / sigma) <= 0 ->
  GenExtreme.logcdf (Real x) (Real mu) (Real sigma) (Real xi) = Ok NegInf.
Proof.
  intros hs hxi hout.
  assert (hsig : sigma <> 0) by lra.
  unfold GenExtreme.logcdf, check_parameters, CheckParameterValue.
  rewrite (gev_check_passes sigma xi hs hxi).
  rewrite (logcdf_support_test _ _ _ _ hsig), gt_Real.
  rewrite Rltb_false by assumption. reflexivity.
Qed.

(** Below the lower endpoint of the support of a GEV with [xi > 0], and
    above the upper endpoint of one with [xi < 0], [1 + xi z] is not
    positive. *)
Lemma below_lower_endpoint (x mu sigma xi : R) :
  0 < sigma -> 0 < xi -> x <= mu - sigma / xi ->
  1 + xi * ((x - mu) / sigma) <= 0.
Proof.
  intros hs hx hle.
  assert (h1 : xi * (x - mu) <= - sigma).
  { assert (e : - sigma = xi * (- (sigma / xi))) by (field; lra).
    rewrite e. apply Rmult_le_compat_l; lra. }
  assert (h2 : xi * (x - mu) / sigma <= -1).
  { replace (-1) with (- sigma / sigma) by (field; lra).
    unfold Rdiv. apply Rmult_le_compat_r; [ | lra].
    left. apply Rinv_0_lt_compat. lra. }
  unfold Rdiv in *. lra.
Qed.

Lemma above_upper_endpoint (x mu sigma xi : R) :
  0 < sigma -> xi < 0 -> mu - sigma / xi < x ->
  1 + xi * ((x - mu) / sigma) < 0.
Proof.
  intros hs hx hlt.
  assert (h1 : xi * (x - mu) < - sigma).
  { assert (e : - sigma = (- xi) * (sigma / xi)) by (field; lra).
    rewrite e.
    replace (xi * (x - mu)) with ((- xi) * (mu - x)) by ring.
    apply Rmult_lt_compat_l; lra. }
  assert (h2 : xi * (x - mu) / sigma < -1).
  { replace (-1) with (- sigma / sigma) by (field; lra).
    unfold Rdiv. apply Rmult_lt_compat_r; [ | lra].
    apply Rinv_0_lt_compat. lra. }
  unfold Rdiv in *. lra.
Qed.

(** C3. For a value [x] and parameters [mu], [sigma > 0], [-1 < xi < 1],
    with [z = (x - mu) / sigma]: inside the support the log-CDF is
    [- exp (- z)] when [xi] is within the tolerance of zero and
    [- (1 + xi z) ^ (- 1 / xi)] otherwise; wherever [1 + xi z <= 0], and so
    everywhere below the support, it is minus infinity. *)
Theorem GenExtreme_logcdf_closed_form (x mu sigma xi : R) :
  0 < sigma -> -1 < xi < 1 ->
  let z := (x - mu) / sigma in
  (0 < 1 + xi * z -> Rabs xi <= pt.atol ->
   GenExtreme.logcdf (Real x) (Real mu) (Real sigma) (Real xi)
   = Ok (Real (- exp (- z))))
  /\ (0 < 1 + xi * z -> pt.atol < Rabs xi ->
      GenExtreme.logcdf (Real x) (Real mu) (Real sigma) (Real xi)
      = Ok (Real (- Rpower (1 + xi * z) (- 1 / xi))))
  /\ (1 + xi * z <= 0 ->
      GenExtreme.logcdf (Real x) (Real mu) (Real sigma) (Real xi) = Ok NegInf)
  /\ (0 < xi -> x <= mu - sigma / xi ->
      GenExtreme.logcdf (Real x) (Real mu) (Real sigma) (Real xi) = Ok NegInf).
Proof.
  intros hs hxi z.
  assert (hsig : sigma <> 0) by lra.
  repeat split.
  - intros hsup hclose.
    unfold GenExtreme.logcdf, check_parameters, CheckParameterValue.
    rewrite (gev_check_passes sigma xi hs hxi).
    rewrite (logcdf_support_test _ _ _ _ hsig), gt_Real, isclose_zero.
    fold z. rewrite Rltb_true by assumption. rewrite Rleb_true by assumption.
    rewrite sub_Real, (div_Real _ _ hsig). reflexivity.
  - intros hsup hfar.
    pose proof (not_close_nonzero xi hfar) as hx0.
    unfold GenExtreme.logcdf, check_parameters, CheckParameterValue.
    rewrite (gev_check_passes sigma xi hs hxi).
    rewrite (logcdf_support_test _ _ _ _ hsig), gt_Real, isclose_zero.
    fold z. rewrite Rltb_true by assumption. rewrite Rleb_false by assumption.
    rewrite sub_Real, (div_Real _ _ hsig), (div_Real _ _ hx0). fold z.
    unfold pt.switch.
    change (Real 1 + Real xi * Real z)%T with (Real (1 + xi * z)).
    rewrite pow_Real_pos; [reflexivity | assumption | ].
    unfold Rdiv. apply Rmult_integral_contrapositive_currified.
    + lra.
    + now apply Rinv_neq_0_compat.
  - intros hout. now apply logcdf_outside.
  - intros hpos hle. apply logcdf_outside; try assumption.
    now apply below_lower_endpoint.
Qed.

Lemma GenExtreme_logcdf_closed_form_witness :
  GenExtreme.logcdf (Real 1) (Real 0) (Real 1) (Real 0)
  = Ok (Real (- exp (- ((1 - 0) / 1))))
  /\ GenExtreme.logcdf (Real 1) (Real 0) (Real 1) (Real (1 / 2))
     = Ok (Real (- Rpower (1 + 1 / 2 * ((1 - 0) / 1)) (- 1 / (1 / 2))))
  /\ GenExtreme.logcdf (Real (-3)) (Real 0) (Real 1) (Real (1 / 2)) = Ok NegInf.
Proof.
  split; [ | split ].
  - apply (GenExtreme_logcdf_closed_form 1 0 1 0); try lra.
    rewrite Rabs_R0. unfold pt.atol. lra.
  - apply (GenExtreme_logcdf_closed_form 1 0 1 (1 / 2)); try lra.
    rewrite Rabs_pos_eq by lra. unfold pt.atol. lra.
  - apply (GenExtreme_logcdf_closed_form (-3) 0 1 (1 / 2)); lra.
Defined.

(** C10. [GenExtreme.logcdf] is minus infinity at every point where
    [1 + xi (x - mu) / sigma <= 0], on either side of the support: for
    [xi < 0] these are the values above the upper endpoint
    [mu - sigma / xi], where the log-CDF of the distribution is [0]. *)
Theorem GenExtreme_logcdf_above_support (x mu sigma xi : R) :
  0 < sigma -> -1 < xi < 1 ->
  (1 + xi * (x - mu) / sigma <= 0 ->
   GenExtreme.logcdf (Real x) (Real mu) (Real sigma) (Real xi) = Ok NegInf)
  /\ (xi < 0 -> mu - sigma / xi < x ->
      GenExtreme.logcdf (Real x) (Real mu) (Real sigma) (Real xi) = Ok NegInf
      /\ GenExtreme.logcdf (Real x) (Real mu) (Real sigma) (Real xi)
         <> Ok (Real 0)).
Proof.
  intros hs hxi. split.
  - intros hout. apply logcdf_outside; try assumption.
    unfold Rdiv in *. lra.
  - intros hneg habove.
    assert (e : GenExtreme.logcdf (Real x) (Real mu) (Real sigma) (Real xi)
                = Ok NegInf).
    { apply logcdf_outside; try assumption.
      apply Rlt_le. now apply above_upper_endpoint. }
    split; [exact e | rewrite e; discriminate].
Qed.

Lemma GenExtreme_logcdf_above_support_witness :
  GenExtreme.logcdf (Real 3) (Real 0) (Real 1) (Real (- (1 / 2))) = Ok NegInf
  /\ GenExtreme.logcdf (Real 3) (Real 0) (Real 1) (Real (- (1 / 2)))
     <> Ok (Real 0).
Proof.
  apply (GenExtreme_logcdf_above_support 3 0 1 (- (1 / 2))); try lra.
  replace (0 - 1 / - (1 / 2)) with 2 by field. lra.
Defined.

(** ** Generalized Normal *)

Lemma pow_Real_nonneg (b e : R) :
  0 <= b -> 0 < e -> pt.pow (Real b) (Real e) = Real (Rpow0 b e).
Proof.
  intros hb he. unfold pt.pow, Rpow0.
  rewrite (Reqb_false e 0) by lra.
  destruct hb as [hb | hb].
  - rewrite Rltb_true by assumption. now rewrite Reqb_false by lra.
  - subst b. rewrite Rltb_false by lra. rewrite Reqb_true by reflexivity.
    now rewrite Rltb_true.
Qed.

Lemma ln_ratio (alpha beta : R) :
  0 < alpha -> 0 < beta -> ln (0.5 * beta) - ln alpha = ln (beta / (2 * alpha)).
Proof.
  intros ha hb.
  assert (half : 0.5 = / 2) by lra.
  replace (beta / (2 * alpha)) with ((0.5 * beta) * / alpha)
    by (rewrite half; field; lra).
  rewrite (ln_mult (0.5 * beta) (/ alpha)); [ | lra | now apply Rinv_0_lt_compat ].
  rewrite ln_Rinv by assumption. ring.
Qed.

(** The parameter check of the Generalized Normal passes on its declared
    domain. *)
Lemma gennorm_check_passes (alpha beta : R) :
  0 < alpha -> 0 < beta ->
  forallb (fun c => c)
    [pt.gt (Real alpha) (Real 0); pt.gt (Real beta) (Real 0)] = true.
Proof.
  intros ha hb. cbn. now rewrite !Rltb_true.
Qed.

(** C4. For a value [x] and parameters [mu], [alpha > 0], [beta > 0], with
    [z = (x - mu) / alpha], the log-density of the Generalized Normal is
    [log (beta / (2 alpha)) - logGamma (1 / beta) - |z| ^ beta], for every
    real [beta > 0]. *)
Theorem GeneralizedNormal_logp_closed_form `{SpecialFunctions}
  (x mu alpha beta : R) :
  0 < alpha -> 0 < beta ->
  let z := (x - mu) / alpha in
  GeneralizedNormal.logp (Real x) (Real mu) (Real alpha) (Real beta)
  = Ok (Real (ln (beta / (2 * alpha))) - pt.gammaln (Real (1 / beta))
        - Real (Rpow0 (Rabs z) beta))%T.
Proof.
  intros ha hb z.
  unfold GeneralizedNormal.logp, check_parameters, CheckParameterValue.
  rewrite (gennorm_check_passes alpha beta ha hb).
  rewrite sub_Real, !div_Real by lra. fold z.
  change (Real 0.5 * Real beta)%T with (Real (0.5 * beta)).
  rewrite log_Real by lra. rewrite (log_Real _ ha).
  change (pt.abs (Real z)) with (Real (Rabs z)).
  rewrite pow_Real_nonneg by (try apply Rabs_pos; assumption).
  rewrite sub_Real, ln_ratio by assumption.
  reflexivity.
Qed.

Lemma GeneralizedNormal_logp_closed_form_witness :
  @GeneralizedNormal.logp constant_special_functions
    (Real 3) (Real 1) (Real 2) (Real (1 / 2))
  = Ok (Real (ln (1 / 2 / (2 * 2)))
        - @pt.gammaln constant_special_functions (Real (1 / (1 / 2)))
        - Real (Rpow0 (Rabs ((3 - 1) / 2)) (1 / 2)))%T.
Proof.
  apply (@GeneralizedNormal_logp_closed_form constant_special_functions
           3 1 2 (1 / 2)); lra.
Defined.

(** C5. For a value [x] and parameters [mu], [alpha > 0], [beta > 0], with
    [z = |x - mu| / alpha], the log-CDF of the Generalized Normal is the
    logarithm of the CDF value
    [0.5 + 0.5 sign (x - mu) P (1 / beta, z ^ beta)], where [P] is the
    regularized lower incomplete gamma function. *)
Theorem GeneralizedNormal_logcdf_closed_form `{SpecialFunctions}
  (x mu alpha beta : R) :
  0 < alpha -> 0 < beta ->
  let z := Rabs (x - mu) / alpha in
  GeneralizedNormal.logcdf (Real x) (Real mu) (Real alpha) (Real beta)
  = Ok (pt.log (Real 0.5 + Real 0.5 * Real (pt.Rsign (x - mu))
                           * pt.gammainc (Real (1 / beta)) (Real (Rpow0 z beta)))%T).
Proof.
  intros ha hb z.
  unfold GeneralizedNormal.logcdf.
  rewrite sub_Real, !div_Real by lra.
  change (pt.abs (Real ((x - mu) / alpha))) with (Real (Rabs ((x - mu) / alpha))).
  assert (e : Rabs ((x - mu) / alpha) = z).
  { unfold z, Rdiv. rewrite Rabs_mult. f_equal.
    apply Rabs_pos_eq. left. now apply Rinv_0_lt_compat. }
  rewrite e.
  rewrite pow_Real_nonneg; [reflexivity | | assumption].
  rewrite <- e. apply Rabs_pos.
Qed.

Lemma GeneralizedNormal_logcdf_closed_form_witness :
  @GeneralizedNormal.logcdf constant_special_functions
    (Real 3) (Real 1) (Real 2) (Real (1 / 2))
  = Ok (pt.log (Real 0.5 + Real 0.5 * Real (pt.Rsign (3 - 1))
                * @pt.gammainc constant_special_functions
                    (Real (1 / (1 / 2)))
                    (Real (Rpow0 (Rabs (3 - 1) / 2) (1 / 2))))%T).
Proof.
  apply (@GeneralizedNormal_logcdf_closed_form constant_special_functions
           3 1 2 (1 / 2)); lra.
Defined.

(** ** The parameter checks *)

(** The three evaluations that end in [check_parameters] flag a violation
    whenever one of their predicates fails. *)
Lemma GenExtreme_logp_checked (value mu sigma xi : floatX) :
  pt.gt sigma (Real 0) && (pt.gt xi (Real (-1)) && pt.lt xi (Real 1)) = false ->
  GenExtreme.logp value mu sigma xi = ParameterValueError GenExtreme.msg.
Proof.
  intros h. unfold GenExtreme.logp, check_parameters, CheckParameterValue.
  cbn [forallb pt.and_].
  destruct (pt.gt sigma (Real 0)), (pt.gt xi (Real (-1))), (pt.lt xi (Real 1));
    cbn in h |- *; (discriminate || reflexivity).
Qed.

Lemma GenExtreme_logcdf_checked (value mu sigma xi : floatX) :
  pt.gt sigma (Real 0) && (pt.gt xi (Real (-1)) && pt.lt xi (Real 1)) = false ->
  GenExtreme.logcdf value mu sigma xi = ParameterValueError GenExtreme.msg.
Proof.
  intros h. unfold GenExtreme.logcdf, check_parameters, CheckParameterValue.
  cbn [forallb pt.and_].
  destruct (pt.gt sigma (Real 0)), (pt.gt xi (Real (-1))), (pt.lt xi (Real 1));
    cbn in h |- *; (discriminate || reflexivity).
Qed.

Lemma GeneralizedNormal_logp_checked `{SpecialFunctions}
  (value mu alpha beta : floatX) :
  pt.gt alpha (Real 0) && pt.gt beta (Real 0) = false ->
  GeneralizedNormal.logp value mu alpha beta
  = ParameterValueError GeneralizedNormal.msg.
Proof.
  intros h. unfold GeneralizedNormal.logp, check_parameters, CheckParameterValue.
  cbn [forallb].
  destruct (pt.gt alpha (Real 0)), (pt.gt beta (Real 0));
    cbn in h |- *; (discriminate || reflexivity).
Qed.

(** C1. The log-CDF of the Generalized Normal does not pass its result
    through the parameter check: it returns a value whatever its
    parameters are, and in particular at [alpha = -1], where the
    log-density of the same distribution flags the violation. *)
Theorem GeneralizedNormal_logcdf_unchecked `{SpecialFunctions} :
  (forall value mu alpha beta : floatX,
      exists v, GeneralizedNormal.logcdf value mu alpha beta = Ok v)
  /\ GeneralizedNormal.logcdf (Real 0) (Real 0) (Real (-1)) (Real 1)
     <> ParameterValueError GeneralizedNormal.msg
  /\ GeneralizedNormal.logp (Real 0) (Real 0) (Real (-1)) (Real 1)
     = ParameterValueError GeneralizedNormal.msg.
Proof.
  split; [ | split ].
  - intros value mu alpha beta. eexists. reflexivity.
  - discriminate.
  - apply GeneralizedNormal_logp_checked. cbn. now rewrite Rltb_false by lra.
Qed.

(** C7. Evaluating the GEV log-density with [sigma = -1] flags a domain
    violation with the message ["sigma > 0 or -1 < xi < 1"], whatever the
    value and the other parameters; building the distribution with that
    scale flags nothing. *)
Theorem GenExtreme_logp_negative_sigma (value mu xi : floatX) :
  GenExtreme.logp value mu (Real (-1)) xi
  = ParameterValueError "sigma > 0 or -1 < xi < 1"
  /\ GenExtreme.dist mu (Real (-1)) xi false = [mu; Real (-1); xi].
Proof.
  split; [ | reflexivity ].
  apply GenExtreme_logp_checked. cbn. now rewrite Rltb_false by lra.
Qed.

(** ** Sampling *)

Lemma neg_involutive (a : floatX) : (- - a)%T = a.
Proof. destruct a; cbn; try reflexivity. f_equal. ring. Qed.

Lemma negative_involutive (a : array) : np.negative (np.negative a) = a.
Proof.
  destruct a as [s d]. unfold np.negative, np.map. cbn.
  f_equal. rewrite List.map_map. rewrite <- (List.map_id d) at 2.
  apply List.map_ext. apply neg_involutive.
Qed.

(** C6. GEV sampling hands the call to the generalized-extreme-value
    variate generator, on the generator state it was given, with the shape
    parameter negated element by element and with the location [mu] and the
    scale [sigma] as they are; so the generator draws with the shape [c]
    when the distribution has the shape [- c]. *)
Theorem GenExtremeRV_rng_fn_delegates {rng : Type} `{RandomVariates rng}
  (np_random r : rng) (mu sigma xi : array) (size : size_t) :
  GenExtremeRV.rng_fn np_random r mu sigma xi size
  = genextreme_variates r
      (np.mk_ndarray (np.shape xi) (List.map pt.neg (np.data xi)))
      mu sigma size
  /\ GenExtremeRV.rng_fn np_random r mu sigma (np.negative xi) size
     = genextreme_variates r xi mu sigma size.
Proof.
  split; [reflexivity | ].
  unfold GenExtremeRV.rng_fn, stats.genextreme_rvs, stats.check_random_state.
  now rewrite negative_involutive.
Qed.

(** C9. Sampling is a function of the parameters, the shape and the
    random source alone: for every variant, two calls with the same three
    return the same array and the same advanced source, whatever the state
    of the process-wide generator at each call. *)
Theorem sample_deterministic {rng : Type} `{RandomVariates rng}
  (np_random1 np_random2 : rng) (v : variant) (params : list array)
  (size : size_t) (r : rng) :
  sample np_random1 v params size r = sample np_random2 v params size r.
Proof.
  destruct v; destruct params as [ | p1 [ | p2 [ | p3 [ | p4 l]]]]; reflexivity.
Qed.

(** ** Broadcasting *)

Lemma in_indices (s idx : list nat) :
  In idx (np.indices s) <-> Forall2 lt idx s.
Proof.
  revert idx. induction s as [ | d s ih]; intros idx; cbn.
  - split.
    + intros [e | []]. subst idx. constructor.
    + intros h. inversion h. now left.
  - rewrite in_flat_map. split.
    + intros (i & hi & hin). apply in_map_iff in hin.
      destruct hin as (idx' & e & hin'). subst idx.
      apply in_seq in hi. constructor; [lia | now apply ih].
    + intros h. inversion h as [ | i d' idx' s' hlt hrest]; subst.
      exists i. split; [apply in_seq; lia | ].
      apply in_map_iff. exists idx'. split; [reflexivity | now apply ih].
Qed.

Lemma ravel_from (s idx : list nat) (acc : nat) :
  List.length idx = List.length s ->
  fold_left (fun acc di => (acc * fst di + snd di)%nat) (combine s idx) acc
  = (acc * np.prod s + np.ravel s idx)%nat.
Proof.
  revert idx acc. induction s as [ | d s ih]; intros [ | i idx] acc hlen;
    cbn in hlen; try discriminate.
  - cbn. lia.
  - unfold np.ravel. cbn [combine fold_left fst snd np.prod fold_right].
    rewrite (ih idx (acc * d + i)%nat) by lia.
    rewrite (ih idx (0 * d + i)%nat) by lia.
    fold (np.prod s). unfold np.ravel. nia.
Qed.

Lemma ravel_cons (d i : nat) (s idx : list nat) :
  List.length idx = List.length s ->
  np.ravel (d :: s) (i :: idx) = (i * np.prod s + np.ravel s idx)%nat.
Proof.
  intros hlen. unfold np.ravel at 1. cbn [combine fold_left fst snd].
  rewrite ravel_from by assumption. lia.
Qed.

(** Every position of the row-major data is the position of an index. *)
Lemma ravel_onto (s : list nat) (k : nat) :
  (k < np.prod s)%nat ->
  exists idx, Forall2 lt idx s /\ np.ravel s idx = k.
Proof.
  revert k. induction s as [ | d s ih]; intros k hk; cbn in hk.
  - exists []. split; [constructor | ]. cbn. lia.
  - fold (np.prod s) in hk.
    assert (hp : (np.prod s <> 0)%nat) by (intros e; rewrite e in hk; lia).
    destruct (ih (k mod np.prod s)%nat) as (idx & hidx & hr).
    { now apply Nat.mod_upper_bound. }
    exists ((k / np.prod s)%nat :: idx). split.
    + constructor; [ | assumption].
      apply Nat.Div0.div_lt_upper_bound. lia.
    + rewrite ravel_cons by (now apply Forall2_length in hidx).
      rewrite hr. rewrite (Nat.div_mod_eq k (np.prod s)) at 3. lia.
Qed.

Lemma broadcast_rev_fits (r1 r2 : list nat) :
  np.broadcast_rev r1 r2 = Some r2 ->
  exists suf pre, r2 = suf ++ pre /\ Forall2 fits r1 suf.
Proof.
  revert r2. induction r1 as [ | d1 t1 ih]; intros r2 h.
  - exists [], r2. split; [reflexivity | constructor].
  - destruct r2 as [ | d2 t2]; cbn in h; [discriminate | ].
    destruct (np.broadcast_rev t1 t2) as [t | ] eqn:e; [ | discriminate].
    assert (ht : t = t2 /\ fits d1 d2).
    { destruct (Nat.eqb_spec d1 d2) as [e12 | n12].
      - inversion h; subst. split; [reflexivity | now left].
      - destruct (Nat.eqb_spec d1 1) as [e1 | n1].
        + inversion h; subst. split; [reflexivity | now right].
        + destruct (Nat.eqb_spec d2 1); [ | discriminate].
          inversion h; subst. contradiction. }
    destruct ht as [-> hfit].
    destruct (ih t2 e) as (suf & pre & -> & hall).
    exists (d2 :: suf), pre. split; [reflexivity | now constructor].
Qed.

Lemma Forall2_rev {A B : Type} (R : A -> B -> Prop) (l : list A) (l' : list B) :
  Forall2 R l l' -> Forall2 R (rev l) (rev l').
Proof.
  induction 1 as [ | x y l l' hxy hl ih]; cbn; [constructor | ].
  apply Forall2_app; [assumption | repeat constructor; assumption].
Qed.

Lemma broadcast_shapes_fits (s t : list nat) :
  np.broadcast_shapes s t = Some t ->
  exists pre suf, t = pre ++ suf /\ Forall2 fits s suf.
Proof.
  unfold np.broadcast_shapes. intros h.
  destruct (np.broadcast_rev (rev s) (rev t)) as [r | ] eqn:e; [ | discriminate].
  cbn in h. inversion h as [hr].
  assert (er : r = rev t) by (rewrite <- hr; now rewrite rev_involutive).
  subst r. destruct (broadcast_rev_fits _ _ e) as (suf & pre & et & hall).
  exists (rev pre), (rev suf). split.
  - rewrite <- rev_app_distr, <- et. now rewrite rev_involutive.
  - rewrite <- (rev_involutive s). now apply Forall2_rev.
Qed.

Lemma project_padded (s sidx pad : list nat) :
  Forall2 lt sidx s -> np.project s (pad ++ sidx) = sidx.
Proof.
  intros h. unfold np.project.
  pose proof (Forall2_length h) as hlen.
  replace (List.length (pad ++ sidx) - List.length s)%nat with (List.length pad)
    by (rewrite length_app; lia).
  rewrite skipn_app, Nat.sub_diag, skipn_all2 by lia. cbn [skipn app].
  clear hlen. induction h as [ | i d sidx s hlt hrest ih]; cbn; [reflexivity | ].
  rewrite ih. f_equal.
  destruct (Nat.eqb_spec d 1); lia.
Qed.

Lemma padded_in_range (s t pre suf sidx : list nat) :
  Forall (fun d => d <> 0%nat) t ->
  t = pre ++ suf -> Forall2 fits s suf -> Forall2 lt sidx s ->
  Forall2 lt (repeat 0%nat (List.length pre) ++ sidx) t.
Proof.
  intros hnz -> hfit hidx.
  apply Forall_app in hnz. destruct hnz as [hpre hsuf].
  apply Forall2_app.
  - clear -hpre. induction hpre as [ | d pre hd hpre ih]; cbn; constructor;
      [lia | assumption].
  - clear hpre. revert sidx hidx hsuf.
    induction hfit as [ | d dt s suf hd hfit ih]; intros sidx hidx hsuf.
    + inversion hidx. constructor.
    + inversion hidx as [ | i d' sidx' s' hlt hrest]; subst.
      inversion hsuf as [ | dt' suf' hdt hsuf']; subst.
      constructor; [ | now apply ih].
      destruct hd as [-> | ->]; lia.
Qed.

(** A test holds of every element of a broadcast to a shape with no
    empty dimension exactly when it holds of every element of the array. *)
Theorem all_broadcast {A : Type} (f : A -> bool) (a b : np.ndarray A)
  (t : list nat) :
  well_formed a ->
  Forall (fun d => d <> 0%nat) t ->
  np.broadcast_to a t = Some b ->
  forallb f (np.data b) = forallb f (np.data a).
Proof.
  intros hwf hnz hb. unfold np.broadcast_to in hb.
  destruct (np.broadcast_shapes (np.shape a) t) as [s | ] eqn:es; [ | discriminate].
  unfold np.shape_eqb in hb.
  destruct (list_eq_dec Nat.eq_dec s t) as [-> | ]; [ | discriminate].
  inversion hb as [eb]. clear hb. cbn [np.data].
  destruct (broadcast_shapes_fits _ _ es) as (pre & suf & et & hfit).
  apply eq_true_iff_eq. rewrite !forallb_forall. split.
  - intros hall x hx.
    apply In_nth_error in hx. destruct hx as (k & hk).
    assert (hlt : (k < np.prod (np.shape a))%nat).
    { rewrite <- hwf. apply nth_error_Some. now rewrite hk. }
    destruct (ravel_onto _ _ hlt) as (sidx & hsidx & hr).
    apply hall. apply in_flat_map.
    exists (repeat 0%nat (List.length pre) ++ sidx). split.
    + apply in_indices. now apply (padded_in_range (np.shape a) t pre suf).
    + rewrite project_padded by assumption. rewrite hr, hk. now left.
  - intros hall x hx. apply in_flat_map in hx.
    destruct hx as (idx & _ & hx).
    destruct (nth_error (np.data a) _) as [y | ] eqn:ey; [ | destruct hx].
    destruct hx as [<- | []]. apply hall. now apply nth_error_In in ey.
Qed.

(** The elements of a broadcast are elements of the array. *)
Lemma broadcast_data_incl {A : Type} (a b : np.ndarray A) (t : list nat) :
  np.broadcast_to a t = Some b -> incl (np.data b) (np.data a).
Proof.
  unfold np.broadcast_to. intros hb.
  destruct (np.broadcast_shapes (np.shape a) t) as [s | ]; [ | discriminate].
  destruct (np.shape_eqb s t); [ | discriminate].
  inversion hb as [eb]. cbn [np.data]. intros x hx.
  apply in_flat_map in hx. destruct hx as (idx & _ & hx).
  destruct (nth_error (np.data a) _) as [y | ] eqn:ey; [ | destruct hx].
  destruct hx as [<- | []]. now apply nth_error_In in ey.
Qed.

Lemma broadcast_rev_refl (r : list nat) : np.broadcast_rev r r = Some r.
Proof.
  induction r as [ | d r ih]; cbn; [reflexivity | ].
  now rewrite ih, Nat.eqb_refl.
Qed.

Lemma broadcast_shapes_refl (s : list nat) : np.broadcast_shapes s s = Some s.
Proof.
  unfold np.broadcast_shapes. rewrite broadcast_rev_refl. cbn.
  now rewrite rev_involutive.
Qed.

(** Every array broadcasts to its own shape. *)
Lemma broadcast_to_own_shape {A : Type} (a : np.ndarray A) :
  exists b, np.broadcast_to a (np.shape a) = Some b.
Proof.
  unfold np.broadcast_to, np.shape_eqb. rewrite broadcast_shapes_refl.
  destruct (list_eq_dec Nat.eq_dec (np.shape a) (np.shape a)) as [ _ | n];
    [ | now contradiction n].
  eexists. reflexivity.
Qed.

Lemma prod_zero (s : list nat) :
  ~ Forall (fun d => d <> 0%nat) s -> np.prod s = 0%nat.
Proof.
  induction s as [ | d s ih]; intros h.
  - contradiction h. constructor.
  - cbn. destruct (Nat.eq_dec d 0) as [-> | nz]; [reflexivity | ].
    fold (np.prod s). rewrite ih; [lia | ].
    intros hs. apply h. now constructor.
Qed.

(** A test holds of every element of the broadcast of a well-formed array
    to its own shape exactly when it holds of every element of the array. *)
Lemma all_broadcast_own_shape {A : Type} (f : A -> bool) (a b : np.ndarray A) :
  well_formed a ->
  np.broadcast_to a (np.shape a) = Some b ->
  forallb f (np.data b) = forallb f (np.data a).
Proof.
  intros hwf hb.
  destruct (Forall_dec (fun d => d <> 0%nat)
              (fun d => match Nat.eq_dec d 0 with
                        | left e => right (fun n => n e)
                        | right n => left n
                        end) (np.shape a)) as [hnz | hz].
  - now apply (all_broadcast f a b (np.shape a)).
  - apply prod_zero in hz. unfold well_formed in hwf. rewrite hz in hwf.
    apply length_zero_iff_nil in hwf.
    pose proof (broadcast_data_incl a b _ hb) as hincl.
    rewrite hwf in hincl |- *.
    destruct (np.data b) as [ | x l]; [reflexivity | ].
    destruct (hincl x (or_introl eq_refl)).
Qed.

(** ** Maxwell *)

Lemma forallb_of_map {A : Type} (f : A -> bool) (l : list A) :
  forallb (fun c => c) (List.map f l) = forallb f l.
Proof. induction l as [ | x l ih]; cbn; [reflexivity | now rewrite ih]. Qed.

(** The shape a Maxwell draw is asked for: the explicit sample shape, or
    the shape of [a] when none is given. *)
Lemma Maxwell_size_inferred {rng : Type} `{RandomVariates rng}
  (a : array) (r : rng) :
  Maxwell.maxwell_dist a None r = Maxwell.maxwell_dist a (Some (np.shape a)) r.
Proof.
  unfold Maxwell.maxwell_dist. cbn [rv_size_is_none].
  destruct (np.shape a); reflexivity.
Qed.

Lemma Maxwell_size_resolved (a : array) (size : size_t) :
  (if rv_size_is_none size then Some (np.shape a) else size)
  = Some (resolved_shape a size).
Proof. destruct size as [[ | d s] | ]; reflexivity. Qed.

(** The code of [maxwell_dist], step by step. *)
Lemma Maxwell_maxwell_dist_steps {rng : Type} `{RandomVariates rng}
  (a : array) (size : size_t) (r : rng) :
  Maxwell.maxwell_dist a size r
  = (if forallb (fun x => pt.gt x (Real 0)) (np.data a)
     then
       match np.multiply
               (np.sqrt (fst (chisquare_variates r (np.scalar (Real 3))
                                (Some (resolved_shape a size))))) a with
       | Some draw =>
           Ok (draw, snd (chisquare_variates r (np.scalar (Real 3))
                            (Some (resolved_shape a size))))
       | None => ValueError
       end
     else ParameterValueError "a > 0").
Proof.
  unfold Maxwell.maxwell_dist. rewrite Maxwell_size_resolved.
  unfold CheckParameterValue, np.all, np.greater_const.
  cbn [np.map np.data]. rewrite forallb_of_map.
  destruct (forallb (fun x => pt.gt x (Real 0)) (np.data a)); reflexivity.
Qed.

(** A test that fails on an element of a broadcast fails on an element of
    the array. *)
Lemma broadcast_test_fails {A : Type} (f : A -> bool) (a b : np.ndarray A)
  (t : list nat) :
  np.broadcast_to a t = Some b ->
  forallb f (np.data b) = false -> forallb f (np.data a) = false.
Proof.
  intros hb hfail.
  destruct (forallb f (np.data a)) eqn:ha; [ | reflexivity].
  rewrite <- hfail. symmetry. apply forallb_forall. intros x hx.
  rewrite forallb_forall in ha. apply ha.
  now apply (broadcast_data_incl a b t hb).
Qed.

(** C8. Maxwell sampling is the composition scale times Chi.  With no
    explicit sample shape the shape is that of [a].  The constraint [a > 0]
    is enforced against the broadcast of [a] to the sample shape, before
    scaling: when an element of that broadcast is not positive the
    violation ["a > 0"] is raised and nothing is drawn; on a sample shape
    with no empty dimension, and when no sample shape is given, the check
    passes exactly when every element of the broadcast is positive.  When
    the check passes the draw is the square root of a chi-squared variate
    with three degrees of freedom, of the resolved shape, multiplied
    element-wise by [a]. *)
Theorem Maxwell_maxwell_dist_composition {rng : Type} `{RandomVariates rng}
  (a : array) (size : size_t) (r : rng) :
  let resolved := resolved_shape a size in
  (rv_size_is_none size = true -> resolved = np.shape a)
  /\ (forall b : array,
         np.broadcast_to a resolved = Some b ->
         forallb (fun x => pt.gt x (Real 0)) (np.data b) = false ->
         Maxwell.maxwell_dist a size r = ParameterValueError "a > 0")
  /\ (forall b : array,
         well_formed a ->
         rv_size_is_none size = true \/ Forall (fun d => d <> 0%nat) resolved ->
         np.broadcast_to a resolved = Some b ->
         forallb (fun x => pt.gt x (Real 0)) (np.data b)
         = forallb (fun x => pt.gt x (Real 0)) (np.data a))
  /\ Maxwell.maxwell_dist a size r
     = (if forallb (fun x => pt.gt x (Real 0)) (np.data a)
        then
          let chi :=
            np.sqrt (fst (chisquare_variates r (np.scalar (Real 3)) (Some resolved))) in
          let r' := snd (chisquare_variates r (np.scalar (Real 3)) (Some resolved)) in
          match np.multiply chi a with
          | Some draw => Ok (draw, r')
          | None => ValueError
          end
        else ParameterValueError "a > 0").
Proof.
  intros resolved. split; [ | split; [ | split]].
  - unfold resolved. destruct size as [[ | d s] | ]; cbn; (reflexivity || discriminate).
  - intros b hb hfail. rewrite Maxwell_maxwell_dist_steps.
    now rewrite (broadcast_test_fails _ a b resolved hb hfail).
  - intros b hwf hsize hb.
    destruct hsize as [hnone | hnz].
    + assert (e : resolved = np.shape a).
      { unfold resolved. destruct size as [[ | d s] | ]; cbn in hnone |- *;
          (reflexivity || discriminate). }
      rewrite e in hb. now apply all_broadcast_own_shape.
    + now apply (all_broadcast _ a b resolved).
  - apply Maxwell_maxwell_dist_steps.
Qed.

Lemma Maxwell_maxwell_dist_composition_witness :
  @Maxwell.maxwell_dist nat counting_variates
    (np.mk_ndarray [2%nat] [Real 1; Real (-2)]) (Some [3%nat; 2%nat]) 0%nat
  = ParameterValueError "a > 0".
Proof.
  apply (proj1 (proj2 (@Maxwell_maxwell_dist_composition nat counting_variates
                         (np.mk_ndarray [2%nat] [Real 1; Real (-2)])
                         (Some [3%nat; 2%nat]) 0%nat))
           (np.mk_ndarray [3%nat; 2%nat]
              [Real 1; Real (-2); Real 1; Real (-2); Real 1; Real (-2)])).
  - reflexivity.
  - cbn. rewrite (Rltb_true 0 1) by lra. now rewrite (Rltb_false 0 (-2)) by lra.
Defined.

(** * Further properties of the code *)

(** ** GEV: domain and values that are not numbers *)





(** X1. The parameter check of the GEV: evaluating the log-density or the
    log-CDF flags a violation exactly when [sigma <= 0], [xi <= -1] or
    [xi >= 1], whatever the value and the location are; the bounds
    themselves are refused. *)
Theorem GenExtreme_domain (value mu : floatX) (sigma xi : R) :
  (GenExtreme.logp value mu (Real sigma) (Real xi)
   = ParameterValueError "sigma > 0 or -1 < xi < 1"
   <-> sigma <= 0 \/ xi <= -1 \/ 1 <= xi)
  /\ (GenExtreme.logcdf value mu (Real sigma) (Real xi)
      = ParameterValueError "sigma > 0 or -1 < xi < 1"
      <-> sigma <= 0 \/ xi <= -1 \/ 1 <= xi).
Proof.
  destruct (Rlt_dec 0 sigma) as [hs | hs];
    [destruct (Rlt_dec (-1) xi) as [h1 | h1];
     [destruct (Rlt_dec xi 1) as [h2 | h2] | ] | ].
  - split; (split; [ | lra]); intros h; exfalso; revert h;
      unfold GenExtreme.logp, GenExtreme.logcdf, check_parameters, CheckParameterValue;
      rewrite (gev_check_passes sigma xi hs (conj h1 h2)); discriminate.
  - split; (split; [lra | intros _]);
      [apply GenExtreme_logp_checked | apply GenExtreme_logcdf_checked];
      cbn; rewrite (Rltb_false xi 1) by lra; now rewrite !andb_false_r.
  - split; (split; [lra | intros _]);
      [apply GenExtreme_logp_checked | apply GenExtreme_logcdf_checked];
      cbn; rewrite (Rltb_false (-1) xi) by lra; now rewrite andb_false_r.
  - split; (split; [lra | intros _]);
      [apply GenExtreme_logp_checked | apply GenExtreme_logcdf_checked];
      cbn; now rewrite (Rltb_false 0 sigma) by lra.
Qed.

(** X2. With parameters in their domain and a shape [xi] that is not
    zero, the log-density and the log-CDF of a value that is not a number
    are minus infinity: the support test fails on it, and no not-a-number
    comes out. *)
Theorem GenExtreme_nan_value (mu sigma xi : R) :
  0 < sigma -> -1 < xi < 1 -> xi <> 0 ->
  GenExtreme.logp NaN (Real mu) (Real sigma) (Real xi) = Ok NegInf
  /\ GenExtreme.logcdf NaN (Real mu) (Real sigma) (Real xi) = Ok NegInf.
Proof.
  intros hs hxi _.
  unfold GenExtreme.logp, GenExtreme.logcdf, check_parameters, CheckParameterValue.
  rewrite (gev_check_passes sigma xi hs hxi). split; reflexivity.
Qed.

Lemma GenExtreme_nan_value_witness :
  GenExtreme.logp NaN (Real 0) (Real 1) (Real (1 / 2)) = Ok NegInf
  /\ GenExtreme.logcdf NaN (Real 0) (Real 1) (Real (1 / 2)) = Ok NegInf.
Proof. apply (GenExtreme_nan_value 0 1 (1 / 2)); lra. Defined.

(** ** Arrays: indices and broadcasts of well-formed arrays *)

Lemma length_indices (s : list nat) : List.length (np.indices s) = np.prod s.
Proof.
  induction s as [ | d s ih]; [reflexivity | ].
  cbn [np.indices np.prod fold_right].
  rewrite (flat_map_constant_length (c := np.prod s)).
  - now rewrite length_seq.
  - intros i _. now rewrite length_map.
Qed.

Lemma flat_map_singleton_const {A B : Type} (x : B) (l : list A) :
  flat_map (fun _ => [x]) l = repeat x (List.length l).
Proof. induction l as [ | y l ih]; cbn; [reflexivity | now rewrite ih]. Qed.

Lemma broadcast_shapes_nil_l (t : list nat) : np.broadcast_shapes [] t = Some t.
Proof.
  unfold np.broadcast_shapes. cbn. now rewrite rev_involutive.
Qed.

Lemma broadcast_shapes_nil_r (s : list nat) : np.broadcast_shapes s [] = Some s.
Proof.
  unfold np.broadcast_shapes. cbn [rev].
  assert (h : np.broadcast_rev (rev s) [] = Some (rev s))
    by (destruct (rev s); reflexivity).
  rewrite h. cbn. now rewrite rev_involutive.
Qed.

Lemma shape_eqb_refl (s : list nat) : np.shape_eqb s s = true.
Proof.
  unfold np.shape_eqb.
  destruct (list_eq_dec Nat.eq_dec s s) as [ _ | n]; [reflexivity | now contradiction n].
Qed.

(** A zero-dimensional array broadcasts to every shape, as the constant
    array of that shape. *)
Lemma broadcast_scalar {A : Type} (x : A) (t : list nat) :
  np.broadcast_to (np.scalar x) t = Some (np.full t x).
Proof.
  unfold np.broadcast_to, np.scalar, np.full. cbn [np.shape np.data].
  rewrite broadcast_shapes_nil_l, shape_eqb_refl.
  do 2 f_equal. cbn. rewrite flat_map_singleton_const. now rewrite length_indices.
Qed.

Lemma flat_map_blocks (p d : nat) :
  flat_map (fun i => seq (i * p) p) (seq 0 d) = seq 0 (d * p).
Proof.
  induction d as [ | d ih]; [reflexivity | ].
  rewrite seq_S, flat_map_app, ih. cbn [flat_map plus].
  rewrite app_nil_r. replace (S d * p)%nat with (d * p + p)%nat by lia.
  now rewrite seq_app.
Qed.

Lemma map_add_seq (c p : nat) : List.map (fun k => (c + k)%nat) (seq 0 p) = seq c p.
Proof.
  revert c. induction p as [ | p ih]; intros c; [reflexivity | ].
  rewrite !seq_S, map_app, ih. reflexivity.
Qed.

(** The positions of the indices of a shape, in row-major order, are the
    positions of the data in order. *)
Lemma map_ravel_indices (s : list nat) :
  List.map (np.ravel s) (np.indices s) = seq 0 (np.prod s).
Proof.
  induction s as [ | d s ih]; [reflexivity | ].
  cbn [np.indices np.prod fold_right]. fold (np.prod s).
  rewrite flat_map_concat_map, concat_map, map_map, <- flat_map_concat_map.
  rewrite <- flat_map_blocks. rewrite !flat_map_concat_map. f_equal.
  apply map_ext. intros i. rewrite map_map.
  rewrite <- map_add_seq, <- ih, map_map.
  apply map_ext_in. intros idx hin.
  apply in_indices, Forall2_length in hin. now apply ravel_cons.
Qed.

Lemma flat_map_nth_error {A : Type} (l : list A) :
  flat_map (fun k => match nth_error l k with Some x => [x] | None => [] end)
    (seq 0 (List.length l)) = l.
Proof.
  induction l as [ | x l ih]; [reflexivity | ].
  cbn [List.length seq flat_map nth_error]. cbn [app]. f_equal.
  rewrite <- seq_shift, flat_map_concat_map, map_map, <- flat_map_concat_map.
  exact ih.
Qed.

(** A well-formed array broadcasts to its own shape as itself. *)
Lemma broadcast_to_own_shape_id {A : Type} (a : np.ndarray A) :
  well_formed a -> np.broadcast_to a (np.shape a) = Some a.
Proof.
  intros hwf. unfold np.broadcast_to.
  rewrite broadcast_shapes_refl, shape_eqb_refl.
  destruct a as [s d]. cbn [np.shape np.data] in *. do 2 f_equal.
  unfold well_formed in hwf. cbn [np.shape np.data] in hwf.
  rewrite flat_map_concat_map.
  rewrite (map_ext_in _
             (fun idx => match nth_error d (np.ravel s idx) with
                         | Some x => [x]
                         | None => []
                         end)).
  - rewrite <- (map_map (np.ravel s)
                        (fun k => match nth_error d k with Some x => [x] | None => [] end)).
    rewrite map_ravel_indices, <- hwf, <- flat_map_concat_map.
    apply flat_map_nth_error.
  - intros idx hin. apply in_indices in hin.
    pose proof (project_padded s idx [] hin) as e. cbn [app] in e.
    now rewrite e.
Qed.

(** ** GEV: the moment and the two sign conventions *)

Lemma moment_mode (mu sigma xi : R) :
  -1 < xi < 1 ->
  pt.switch (pt.isclose (Real xi) (Real 0)) (Real mu)
    (Real mu + Real sigma * (pt.pow (Real 1 + Real xi) (- Real xi) - Real 1)
               / Real xi)%T
  = Real (gev_mode mu sigma xi).
Proof.
  intros hxi. rewrite isclose_zero. unfold gev_mode, pt.switch.
  destruct (Rle_dec (Rabs xi) pt.atol) as [hclose | hfar].
  - now rewrite Rleb_true by assumption.
  - apply Rnot_le_lt in hfar. rewrite Rleb_false by assumption.
    pose proof (not_close_nonzero xi hfar) as hx0.
    change (Real 1 + Real xi)%T with (Real (1 + xi)).
    change (- Real xi)%T with (Real (- xi)).
    rewrite pow_Real_pos by lra.
    rewrite sub_Real.
    change (Real sigma * Real (Rpower (1 + xi) (- xi) - 1))%T
      with (Real (sigma * (Rpower (1 + xi) (- xi) - 1))).
    rewrite (div_Real _ _ hx0). reflexivity.
Qed.

(** X5. For scalar parameters with [-1 < xi < 1] the moment of the GEV is
    the mode formula of the code, [mu] for [xi] within the tolerance of
    zero and [mu + sigma ((1 + xi) ^ (- xi) - 1) / xi] otherwise: a scalar
    when the size is none, and otherwise the array of the size asked for,
    well formed, with the mode at every place. *)
Theorem GenExtreme_moment_fills_mode (mu sigma xi : R) :
  -1 < xi < 1 ->
  GenExtreme.moment None (Real mu) (Real sigma) (Real xi)
  = Ok (np.scalar (Real (gev_mode mu sigma xi)))
  /\ (forall s : list nat,
         exists m : array,
           GenExtreme.moment (Some s) (Real mu) (Real sigma) (Real xi) = Ok m
           /\ np.shape m = s
           /\ List.length (np.data m) = np.prod s
           /\ Forall (fun v => v = Real (gev_mode mu sigma xi)) (np.data m)).
Proof.
  intros hxi. split.
  - unfold GenExtreme.moment. now rewrite (moment_mode mu sigma xi hxi).
  - intros s. exists (np.full s (Real (gev_mode mu sigma xi))).
    split; [ | split; [reflexivity | split]].
    + unfold GenExtreme.moment. rewrite (moment_mode mu sigma xi hxi).
      destruct s as [ | d s]; [reflexivity | ].
      cbn [rv_size_is_none negb pt_full np.shape np.scalar List.length Nat.ltb Nat.leb].
      now rewrite broadcast_scalar.
    + unfold np.full. cbn [np.data]. apply repeat_length.
    + unfold np.full. cbn [np.data]. apply Forall_forall.
      intros v hv. now apply repeat_spec in hv.
Qed.

Lemma GenExtreme_moment_fills_mode_witness :
  GenExtreme.moment None (Real 0) (Real 1) (Real (1 / 2))
  = Ok (np.scalar (Real (gev_mode 0 1 (1 / 2))))
  /\ (forall s : list nat,
         exists m : array,
           GenExtreme.moment (Some s) (Real 0) (Real 1) (Real (1 / 2)) = Ok m
           /\ np.shape m = s
           /\ List.length (np.data m) = np.prod s
           /\ Forall (fun v => v = Real (gev_mode 0 1 (1 / 2))) (np.data m)).
Proof. apply (GenExtreme_moment_fills_mode 0 1 (1 / 2)); lra. Defined.

(** X6. The [scipy] flag of [GenExtreme.dist] and the negation in
    [GenExtremeRV.rng_fn] cancel: a distribution built from a shape [c] in
    the convention of scipy draws from the generator with the shape [c],
    the location and the scale it was given; and building with the flag
    from [- c] is building without it from [c]. *)
Theorem GenExtreme_scipy_round_trip {rng : Type} `{RandomVariates rng}
  (np_random r : rng) (mu sigma c : floatX) (size : size_t) :
  match GenExtreme.dist mu sigma c true with
  | [mu'; sigma'; xi'] =>
      GenExtremeRV.rng_fn np_random r
        (np.scalar mu') (np.scalar sigma') (np.scalar xi') size
      = genextreme_variates r (np.scalar c) (np.scalar mu) (np.scalar sigma) size
  | _ => False
  end
  /\ GenExtreme.dist mu sigma (- c)%T true = GenExtreme.dist mu sigma c false.
Proof.
  split.
  - cbn [GenExtreme.dist].
    unfold GenExtremeRV.rng_fn, stats.genextreme_rvs, stats.check_random_state.
    unfold np.negative, np.map, np.scalar. cbn [np.shape np.data List.map].
    now rewrite neg_involutive.
  - unfold GenExtreme.dist. now rewrite neg_involutive.
Qed.

(** ** Generalized Normal: symmetry, shape and domain *)

Lemma gennorm_logp_value `{SpecialFunctions} (x mu alpha beta : R) :
  0 < alpha -> 0 < beta ->
  GeneralizedNormal.logp (Real x) (Real mu) (Real alpha) (Real beta)
  = Ok (Real (ln (0.5 * beta) - ln alpha) - pt.gammaln (Real (1 / beta))
        - Real (Rpow0 (Rabs ((x - mu) / alpha)) beta))%T.
Proof.
  intros ha hb.
  unfold GeneralizedNormal.logp, check_parameters, CheckParameterValue.
  rewrite (gennorm_check_passes alpha beta ha hb).
  rewrite sub_Real, !div_Real by lra.
  change (Real 0.5 * Real beta)%T with (Real (0.5 * beta)).
  rewrite log_Real by lra. rewrite (log_Real _ ha).
  change (pt.abs (Real ((x - mu) / alpha))) with (Real (Rabs ((x - mu) / alpha))).
  rewrite pow_Real_nonneg by (try apply Rabs_pos; assumption).
  reflexivity.
Qed.

Lemma abs_div_opp (a : R) (b : floatX) :
  pt.abs (Real a / b)%T = pt.abs (Real (- a) / b)%T.
Proof.
  destruct b as [y | | | ]; try reflexivity.
  unfold pt.true_div. destruct (Req_dec_T y 0) as [hy | hy].
  - rewrite Reqb_true by assumption.
    destruct (Rtotal_order a 0) as [hlt | [heq | hgt]].
    + rewrite (Reqb_false a 0), (Reqb_false (- a) 0) by lra.
      rewrite (Rltb_false 0 a), (Rltb_true 0 (- a)) by lra. reflexivity.
    + rewrite (Reqb_true a 0), (Reqb_true (- a) 0) by lra. reflexivity.
    + rewrite (Reqb_false a 0), (Reqb_false (- a) 0) by lra.
      rewrite (Rltb_true 0 a), (Rltb_false 0 (- a)) by lra. reflexivity.
  - rewrite Reqb_false by assumption. cbn [pt.abs]. f_equal.
    replace (- a / y) with (- (a / y)) by (field; assumption).
    now rewrite Rabs_Ropp.
Qed.

(** X7. The log-density of the Generalized Normal is symmetric about the
    location: it takes the same value, or raises the same violation, at
    [mu + d] and at [mu - d], whatever the scale and the shape are. *)
Theorem GeneralizedNormal_logp_symmetric `{SpecialFunctions}
  (mu d : R) (alpha beta : floatX) :
  GeneralizedNormal.logp (Real (mu + d)) (Real mu) alpha beta
  = GeneralizedNormal.logp (Real (mu - d)) (Real mu) alpha beta.
Proof.
  unfold GeneralizedNormal.logp. rewrite !sub_Real.
  replace (mu + d - mu) with d by ring.
  replace (mu - d - mu) with (- d) by ring.
  now rewrite (abs_div_opp d alpha).
Qed.

Lemma Rpow0_nonneg (b e : R) : 0 <= Rpow0 b e.
Proof.
  unfold Rpow0, Reqb. destruct (Req_dec_T b 0); [lra | ].
  left. unfold Rpower. apply exp_pos.
Qed.

Lemma Rpow0_monotone (a b e : R) :
  0 <= a <= b -> 0 < e -> Rpow0 a e <= Rpow0 b e.
Proof.
  intros [ha hab] he.
  destruct (Req_dec_T a 0) as [-> | hna].
  - unfold Rpow0 at 1. rewrite Reqb_true by reflexivity. apply Rpow0_nonneg.
  - unfold Rpow0. rewrite !Reqb_false by lra.
    apply Rle_Rpower_l; lra.
Qed.

(** X8. With parameters in their domain the log-density of the
    Generalized Normal is its value at the location minus a penalty
    [|z| ^ beta] that is zero at the location and does not decrease with the
    distance to it: for [|x1 - mu| <= |x2 - mu|] the two log-densities are
    [c - p1] and [c - p2] with the same [c] and [0 <= p1 <= p2], and the
    log-density at [mu] is [c - 0]. *)
Theorem GeneralizedNormal_logp_unimodal `{SpecialFunctions}
  (x1 x2 mu alpha beta : R) :
  0 < alpha -> 0 < beta ->
  Rabs (x1 - mu) <= Rabs (x2 - mu) ->
  exists (c : floatX) (p1 p2 : R),
    GeneralizedNormal.logp (Real x1) (Real mu) (Real alpha) (Real beta)
    = Ok (c - Real p1)%T
    /\ GeneralizedNormal.logp (Real x2) (Real mu) (Real alpha) (Real beta)
       = Ok (c - Real p2)%T
    /\ GeneralizedNormal.logp (Real mu) (Real mu) (Real alpha) (Real beta)
       = Ok (c - Real 0)%T
    /\ 0 <= p1 <= p2.
Proof.
  intros ha hb hle.
  exists (Real (ln (0.5 * beta) - ln alpha) - pt.gammaln (Real (1 / beta)))%T,
         (Rpow0 (Rabs ((x1 - mu) / alpha)) beta),
         (Rpow0 (Rabs ((x2 - mu) / alpha)) beta).
  split; [now apply gennorm_logp_value | split; [now apply gennorm_logp_value | ]].
  split.
  - rewrite gennorm_logp_value by assumption. do 3 f_equal.
    replace ((mu - mu) / alpha) with 0 by (field; lra).
    rewrite Rabs_R0. unfold Rpow0. now rewrite Reqb_true.
  - split; [apply Rpow0_nonneg | ].
    apply Rpow0_monotone; [ | assumption].
    split; [apply Rabs_pos | ].
    unfold Rdiv. rewrite !Rabs_mult.
    apply Rmult_le_compat_r; [apply Rabs_pos | assumption].
Qed.

Lemma GeneralizedNormal_logp_unimodal_witness :
  exists (c : floatX) (p1 p2 : R),
    @GeneralizedNormal.logp constant_special_functions
      (Real 1) (Real 0) (Real 2) (Real 3)
    = Ok (c - Real p1)%T
    /\ @GeneralizedNormal.logp constant_special_functions
         (Real (-2)) (Real 0) (Real 2) (Real 3)
       = Ok (c - Real p2)%T
    /\ @GeneralizedNormal.logp constant_special_functions
         (Real 0) (Real 0) (Real 2) (Real 3)
       = Ok (c - Real 0)%T
    /\ 0 <= p1 <= p2.
Proof.
  apply (@GeneralizedNormal_logp_unimodal constant_special_functions 1 (-2) 0 2 3);
    try lra.
  replace (1 - 0) with 1 by ring. replace (-2 - 0) with (- (2)) by ring.
  rewrite Rabs_Ropp, !Rabs_pos_eq by lra. lra.
Defined.

Lemma Rpow0_square (a : R) : Rpow0 (Rabs a) 2 = a * a.
Proof.
  unfold Rpow0. destruct (Req_dec_T (Rabs a) 0) as [h0 | hn].
  - rewrite Reqb_true by assumption.
    destruct (Req_dec_T a 0) as [-> | hna]; [ring | ].
    now apply Rabs_no_R0 in hna.
  - rewrite Reqb_false by assumption.
    assert (hpos : 0 < Rabs a) by (pose proof (Rabs_pos a); lra).
    replace 2 with (INR 2) by (cbn; ring).
    rewrite Rpower_pow by assumption. rewrite pow2_abs. ring.
Qed.

Lemma Rpow0_one (a : R) : Rpow0 (Rabs a) 1 = Rabs a.
Proof.
  unfold Rpow0. destruct (Req_dec_T (Rabs a) 0) as [h0 | hn].
  - rewrite Reqb_true by assumption. now rewrite h0.
  - rewrite Reqb_false by assumption.
    apply Rpower_1. pose proof (Rabs_pos a). lra.
Qed.

(** X9. The two classical shapes: with [beta = 2] the log-density of the
    Generalized Normal is quadratic in [z = (x - mu) / alpha],
    [- log alpha - logGamma (1 / 2) - z ^ 2], the shape of a normal
    density; with [beta = 1] it is linear in [|z|],
    [log (1 / 2) - log alpha - logGamma 1 - |z|], the shape of a Laplace
    density. *)
Theorem GeneralizedNormal_logp_normal_and_laplace `{SpecialFunctions}
  (x mu alpha : R) :
  0 < alpha ->
  let z := (x - mu) / alpha in
  GeneralizedNormal.logp (Real x) (Real mu) (Real alpha) (Real 2)
  = Ok (Real (- ln alpha) - pt.gammaln (Real (1 / 2)) - Real (z * z))%T
  /\ GeneralizedNormal.logp (Real x) (Real mu) (Real alpha) (Real 1)
     = Ok (Real (ln (1 / 2) - ln alpha) - pt.gammaln (Real 1) - Real (Rabs z))%T.
Proof.
  intros ha z. split.
  - rewrite gennorm_logp_value by lra. fold z.
    rewrite Rpow0_square.
    replace (0.5 * 2) with 1 by lra. rewrite ln_1.
    replace (0 - ln alpha) with (- ln alpha) by ring. reflexivity.
  - rewrite gennorm_logp_value by lra. fold z.
    rewrite Rpow0_one.
    replace (0.5 * 1) with (1 / 2) by lra.
    replace (1 / 1) with 1 by lra. reflexivity.
Qed.

Lemma GeneralizedNormal_logp_normal_and_laplace_witness :
  @GeneralizedNormal.logp constant_special_functions
    (Real 3) (Real 1) (Real 2) (Real 2)
  = Ok (Real (- ln 2) - @pt.gammaln constant_special_functions (Real (1 / 2))
        - Real ((3 - 1) / 2 * ((3 - 1) / 2)))%T
  /\ @GeneralizedNormal.logp constant_special_functions
       (Real 3) (Real 1) (Real 2) (Real 1)
     = Ok (Real (ln (1 / 2) - ln 2) - @pt.gammaln constant_special_functions (Real 1)
           - Real (Rabs ((3 - 1) / 2)))%T.
Proof.
  apply (@GeneralizedNormal_logp_normal_and_laplace constant_special_functions 3 1 2).
  lra.
Defined.

(** X10. The location is the median: when the incomplete gamma function
    returns a finite value at [(1 / beta, 0)], the log-CDF of the
    Generalized Normal at [x = mu] is [log 0.5], for every shape
    [beta > 0] and every non-zero scale, a negative one included. *)
Theorem GeneralizedNormal_logcdf_median `{SpecialFunctions}
  (mu alpha beta p : R) :
  alpha <> 0 -> 0 < beta ->
  pt.gammainc (Real (1 / beta)) (Real 0) = Real p ->
  GeneralizedNormal.logcdf (Real mu) (Real mu) (Real alpha) (Real beta)
  = Ok (Real (ln 0.5)).
Proof.
  intros ha hb hp.
  unfold GeneralizedNormal.logcdf.
  rewrite sub_Real, !div_Real by lra.
  replace ((mu - mu) / alpha) with 0 by (field; assumption).
  replace (mu - mu) with 0 by ring.
  change (pt.abs (Real 0)) with (Real (Rabs 0)). rewrite Rabs_R0.
  rewrite pow_Real_nonneg by lra.
  unfold Rpow0 at 1. rewrite Reqb_true by reflexivity. rewrite hp.
  change (pt.sign (Real 0)) with (Real (pt.Rsign 0)).
  unfold pt.Rsign. rewrite !Rltb_false by lra.
  change (Real 0.5 + Real 0.5 * Real 0 * Real p)%T
    with (Real (0.5 + 0.5 * 0 * p)).
  replace (0.5 + 0.5 * 0 * p) with 0.5 by lra.
  now rewrite log_Real by lra.
Qed.

Lemma GeneralizedNormal_logcdf_median_witness :
  @GeneralizedNormal.logcdf constant_special_functions
    (Real 1) (Real 1) (Real 2) (Real 3)
  = Ok (Real (ln 0.5)).
Proof.
  apply (@GeneralizedNormal_logcdf_median constant_special_functions 1 2 3 0).
  - lra.
  - lra.
  - reflexivity.
Defined.

(** X11. The parameter check of the Generalized Normal log-density:
    evaluating it flags a violation exactly when [alpha <= 0] or
    [beta <= 0], whatever the value and the location are. *)
Theorem GeneralizedNormal_logp_domain `{SpecialFunctions}
  (value mu : floatX) (alpha beta : R) :
  GeneralizedNormal.logp value mu (Real alpha) (Real beta)
  = ParameterValueError "alpha > 0, beta > 0"
  <-> alpha <= 0 \/ beta <= 0.
Proof.
  destruct (Rlt_dec 0 alpha) as [ha | ha]; [destruct (Rlt_dec 0 beta) as [hb | hb] | ].
  - split; [ | lra]. intros h. exfalso. revert h.
    unfold GeneralizedNormal.logp, check_parameters, CheckParameterValue.
    rewrite (gennorm_check_passes alpha beta ha hb). discriminate.
  - split; [lra | intros _]. apply GeneralizedNormal_logp_checked.
    cbn. rewrite (Rltb_false 0 beta) by lra. now rewrite andb_false_r.
  - split; [lra | intros _]. apply GeneralizedNormal_logp_checked.
    cbn. now rewrite (Rltb_false 0 alpha) by lra.
Qed.

(** ** Generalized Normal: the moment *)

Lemma broadcast_to_none_shape {A : Type} (a a' : np.ndarray A) (t : list nat) :
  np.shape a' = np.shape a ->
  (np.broadcast_to a' t = None <-> np.broadcast_to a t = None).
Proof.
  intros e. unfold np.broadcast_to. rewrite e.
  destruct (np.broadcast_shapes (np.shape a) t) as [s | ]; [ | tauto].
  destruct (np.shape_eqb s t); [ | tauto].
  split; discriminate.
Qed.

(** The elements of a filled array are elements of the fill value. *)
Lemma pt_full_incl (size : size_t) (v m : array) :
  pt_full size v = Ok m -> incl (np.data m) (np.data v).
Proof.
  unfold pt_full. destruct size as [s | ]; [ | discriminate].
  destruct (Nat.ltb _ _); [discriminate | ].
  destruct (np.broadcast_to v s) as [m' | ] eqn:em; [ | discriminate].
  intros e. inversion e; subst m'. exact (broadcast_data_incl v m s em).
Qed.

(** X12. The moment of the Generalized Normal takes its values from the
    location alone: each of its elements is an element of [mu], and the
    scale and the shape parameter count through their array shapes only. *)
Theorem GeneralizedNormal_moment_from_mu (size : size_t) (mu alpha beta : array) :
  (forall m : array,
      GeneralizedNormal.moment size mu alpha beta = Ok m ->
      incl (np.data m) (np.data mu))
  /\ (forall alpha' beta' : array,
         np.shape alpha' = np.shape alpha -> np.shape beta' = np.shape beta ->
         GeneralizedNormal.moment size mu alpha' beta'
         = GeneralizedNormal.moment size mu alpha beta).
Proof.
  split.
  - intros m. unfold GeneralizedNormal.moment, np.broadcast_arrays.
    destruct (np.broadcast_shapes_list _) as [s | ]; [ | discriminate].
    cbn [List.map np.sequence].
    destruct (np.broadcast_to mu s) as [mu' | ] eqn:emu; [ | discriminate].
    destruct (np.broadcast_to alpha s); [ | discriminate].
    destruct (np.broadcast_to beta s); [ | discriminate].
    pose proof (broadcast_data_incl mu mu' s emu) as hmu.
    destruct (rv_size_is_none size); cbn [negb].
    + intros e. inversion e; subst m. exact hmu.
    + intros e. pose proof (pt_full_incl size mu' m e) as hm.
      intros x hx. apply hmu, hm, hx.
  - intros alpha' beta' ea eb.
    unfold GeneralizedNormal.moment, np.broadcast_arrays.
    cbn [List.map]. rewrite ea, eb.
    destruct (np.broadcast_shapes_list _) as [s | ]; [ | reflexivity].
    cbn [np.sequence].
    destruct (np.broadcast_to mu s) as [mu' | ]; [ | reflexivity].
    pose proof (broadcast_to_none_shape alpha alpha' s ea) as ha.
    pose proof (broadcast_to_none_shape beta beta' s eb) as hb.
    destruct (np.broadcast_to alpha s), (np.broadcast_to alpha' s);
      try reflexivity;
      try (exfalso; destruct ha as [h1 h2];
           (now discriminate h1) || (now discriminate h2)).
    destruct (np.broadcast_to beta s), (np.broadcast_to beta' s);
      try reflexivity;
      try (exfalso; destruct hb as [h1 h2];
           (now discriminate h1) || (now discriminate h2)).
Qed.

(** X13. With a scalar scale and a scalar shape parameter the moment of
    the Generalized Normal is the location array itself, when no size is
    asked for and when the size asked for is the shape of the location. *)
Theorem GeneralizedNormal_moment_scalar_parameters (mu alpha beta : array) :
  well_formed mu -> np.shape alpha = [] -> np.shape beta = [] ->
  GeneralizedNormal.moment None mu alpha beta = Ok mu
  /\ GeneralizedNormal.moment (Some (np.shape mu)) mu alpha beta = Ok mu.
Proof.
  intros hwf ea eb.
  assert (hb : forall c : array, np.shape c = [] ->
                 exists c', np.broadcast_to c (np.shape mu) = Some c').
  { intros c ec. unfold np.broadcast_to.
    rewrite ec, broadcast_shapes_nil_l, shape_eqb_refl. eexists. reflexivity. }
  destruct (hb alpha ea) as (alpha' & ha'). destruct (hb beta eb) as (beta' & hb').
  assert (hs : np.broadcast_shapes_list [np.shape mu; np.shape alpha; np.shape beta]
               = Some (np.shape mu)).
  { rewrite ea, eb. cbn [np.broadcast_shapes_list].
    change (np.broadcast_shapes [] []) with (Some (@nil nat)).
    cbv iota. change (np.broadcast_shapes [] []) with (Some (@nil nat)).
    cbv iota. apply broadcast_shapes_nil_r. }
  unfold GeneralizedNormal.moment, np.broadcast_arrays.
  cbn [List.map]. rewrite hs. cbn [np.sequence].
  rewrite (broadcast_to_own_shape_id mu hwf), ha', hb'.
  split; [reflexivity | ].
  destruct (rv_size_is_none (Some (np.shape mu))); cbn [negb]; [reflexivity | ].
  unfold pt_full. rewrite Nat.ltb_irrefl.
  now rewrite (broadcast_to_own_shape_id mu hwf).
Qed.

Lemma GeneralizedNormal_moment_scalar_parameters_witness :
  GeneralizedNormal.moment None
    (np.mk_ndarray [2%nat] [Real 1; Real 2]) (np.scalar (Real 1)) (np.scalar (Real 2))
  = Ok (np.mk_ndarray [2%nat] [Real 1; Real 2])
  /\ GeneralizedNormal.moment (Some [2%nat])
       (np.mk_ndarray [2%nat] [Real 1; Real 2]) (np.scalar (Real 1)) (np.scalar (Real 2))
     = Ok (np.mk_ndarray [2%nat] [Real 1; Real 2]).
Proof.
  apply (GeneralizedNormal_moment_scalar_parameters
           (np.mk_ndarray [2%nat] [Real 1; Real 2])
           (np.scalar (Real 1)) (np.scalar (Real 2)));
    reflexivity.
Defined.

(** ** Chi and Maxwell: the draws *)

Lemma sqrt_nonneg_real (v : floatX) :
  nonneg_real v -> nonneg_real (pt.sqrt v).
Proof.
  intros (r & -> & hr). unfold pt.sqrt. rewrite Rleb_true by assumption.
  exists (sqrt r). split; [reflexivity | now apply sqrt_pos].
Qed.

(** X14. Chi draws are finite and not negative: when the chi-squared
    variates of the generator are finite and not negative, [Chi.dist]
    returns a draw of as many elements, each a real number that is not
    negative, and the generator advanced by the one chi-squared draw. *)
Theorem Chi_draw_nonneg {rng : Type} `{RandomVariates rng}
  (nu : array) (size : size_t) (r : rng) :
  Forall nonneg_real (np.data (fst (chisquare_variates r nu size))) ->
  exists draw : array,
    Chi.dist nu size r = Ok (draw, snd (chisquare_variates r nu size))
    /\ List.length (np.data draw)
       = List.length (np.data (fst (chisquare_variates r nu size)))
    /\ Forall nonneg_real (np.data draw).
Proof.
  intros hall. exists (np.sqrt (fst (chisquare_variates r nu size))).
  split; [reflexivity | ].
  unfold np.sqrt, np.map. cbn [np.data]. split; [apply length_map | ].
  induction hall as [ | v l hv hl ih]; [constructor | ].
  cbn [List.map]. constructor; [ | exact ih].
  now apply sqrt_nonneg_real.
Qed.

Lemma Chi_draw_nonneg_witness :
  exists draw : array,
    @Chi.dist nat counting_variates (np.scalar (Real 3)) (Some [2%nat]) 0%nat
    = Ok (draw, snd (@chisquare_variates nat counting_variates 0%nat
                       (np.scalar (Real 3)) (Some [2%nat])))
    /\ List.length (np.data draw)
       = List.length
           (np.data (fst (@chisquare_variates nat counting_variates 0%nat
                            (np.scalar (Real 3)) (Some [2%nat]))))
    /\ Forall nonneg_real (np.data draw).
Proof.
  apply (@Chi_draw_nonneg nat counting_variates (np.scalar (Real 3)) (Some [2%nat]) 0%nat).
  repeat constructor; exists 1; split; (reflexivity || lra).
Defined.





(** X16. With no sample shape, a Maxwell draw is element by element the
    square root of the chi-squared variate times the scale: when [a] is
    well formed with positive elements and the generator returns a
    well-formed array of the shape of [a], the draw has the shape of [a]
    and its [i]-th element is [sqrt (variate i) * a i]. *)
Theorem Maxwell_draw_default_shape {rng : Type} `{RandomVariates rng}
  (a : array) (r : rng) :
  let chi2 := fst (chisquare_variates r (np.scalar (Real 3)) (Some (np.shape a))) in
  let r' := snd (chisquare_variates r (np.scalar (Real 3)) (Some (np.shape a))) in
  well_formed a -> well_formed chi2 -> np.shape chi2 = np.shape a ->
  forallb (fun x => pt.gt x (Real 0)) (np.data a) = true ->
  Maxwell.dist a None r
  = Ok (np.mk_ndarray (np.shape a)
          (List.map (fun xy => pt.sqrt (fst xy) * snd xy)%T
             (combine (np.data chi2) (np.data a))),
        r').
Proof.
  intros chi2 r' hwa hwc hshape hpos.
  unfold Maxwell.dist, Maxwell.maxwell_dist, CheckParameterValue,
    np.all, np.greater_const.
  cbn [np.map np.data rv_size_is_none]. rewrite forallb_of_map, hpos.
  cbn [bind]. unfold Chi.dist, Chi.chi_dist, ChiSquared.dist. cbn [bind fst snd].
  fold chi2. fold r'.
  assert (hws : well_formed (np.sqrt chi2)).
  { unfold well_formed, np.sqrt, np.map in *. cbn [np.data np.shape].
    now rewrite length_map. }
  unfold np.multiply, np.map2.
  replace (np.shape (np.sqrt chi2)) with (np.shape a) by (symmetry; exact hshape).
  rewrite broadcast_shapes_refl.
  replace (np.broadcast_to (np.sqrt chi2) (np.shape a)) with (Some (np.sqrt chi2)).
  2:{ symmetry. rewrite <- hshape. apply (broadcast_to_own_shape_id _ hws). }
  rewrite (broadcast_to_own_shape_id a hwa).
  do 3 f_equal. unfold np.sqrt, np.map. cbn [np.data].
  generalize (np.data a). generalize (np.data chi2).
  induction l as [ | x l ih]; intros [ | y l']; cbn; try reflexivity.
  now rewrite ih.
Qed.

Lemma Maxwell_draw_default_shape_witness :
  @Maxwell.dist nat counting_variates
    (np.mk_ndarray [2%nat] [Real 1; Real 2]) None 0%nat
  = Ok (np.mk_ndarray [2%nat]
          (List.map (fun xy => pt.sqrt (fst xy) * snd xy)%T
             (combine
                (np.data (fst (@chisquare_variates nat counting_variates 0%nat
                                 (np.scalar (Real 3)) (Some [2%nat]))))
                [Real 1; Real 2])),
        snd (@chisquare_variates nat counting_variates 0%nat
               (np.scalar (Real 3)) (Some [2%nat]))).
Proof.
  apply (@Maxwell_draw_default_shape nat counting_variates
           (np.mk_ndarray [2%nat] [Real 1; Real 2]) 0%nat).
  - reflexivity.
  - reflexivity.
  - reflexivity.
  - cbn. now rewrite !Rltb_true by lra.
Defined.

(** ** Chi and Maxwell: registration *)

Lemma kw_get_app {V : Type} (k k' : string) (v : V) (kw : kwargs V) :
  kw_get k (kw ++ [(k', v)])
  = match kw_get k kw with
    | Some x => Some x
    | None => if String.eqb k k' then Some v else None
    end.
Proof.
  induction kw as [ | [k0 v0] kw ih]; cbn; [reflexivity | ].
  destruct (String.eqb k k0); [reflexivity | exact ih].
Qed.

Lemma chi_kwargs_other_keys {V : Type} (v : V) (kw : kwargs V) (k : string) :
  k <> "transform"%string ->
  kw_get k (if negb (kw_contains "observed" kw)
            then setdefault "transform" v kw else kw)
  = kw_get k kw.
Proof.
  intros hk. unfold setdefault.
  destruct (kw_contains "observed" kw); cbn [negb]; [reflexivity | ].
  destruct (kw_contains "transform" kw); [reflexivity | ].
  rewrite kw_get_app.
  destruct (kw_get k kw); [reflexivity | ].
  destruct (String.eqb_spec k "transform"); [contradiction | reflexivity].
Qed.

Lemma chi_kwargs_transform {V : Type} (v : V) (kw : kwargs V) :
  kw_get "transform" (if negb (kw_contains "observed" kw)
                      then setdefault "transform" v kw else kw)
  = match kw_get "transform" kw with
    | Some t => Some t
    | None => if kw_contains "observed" kw then None else Some v
    end.
Proof.
  unfold setdefault.
  destruct (kw_contains "observed" kw); cbn [negb].
  - destruct (kw_get "transform" kw); reflexivity.
  - unfold kw_contains.
    destruct (kw_get "transform" kw) as [t | ] eqn:et; [exact et | ].
    rewrite kw_get_app, et. reflexivity.
Qed.

(** X17. [Chi.__new__] and [Maxwell.__new__] refuse, as ill typed, keyword
    arguments that name [dist] or [class_name] again.  Otherwise
    [Chi.__new__] registers the variable under its name, with the parameter
    [nu] and the class name ["Chi"], and touches the keyword arguments at the
    key ["transform"] only: a transform named by the caller is kept,
    otherwise the log transform is added unless the variable is observed,
    in which case none is; and [Maxwell.__new__] hands its keyword arguments
    on as they are. *)
Theorem Chi_new_default_transform {rng V : Type} `{RandomVariates rng}
  (transforms_log : V) (name : string) (nu a : array) (kw : kwargs V) :
  (kw_contains "dist" kw || kw_contains "class_name" kw = true ->
   @Chi.__new__ rng _ V transforms_log name nu kw = TypeError
   /\ @Maxwell.__new__ rng _ V name a kw = TypeError)
  /\ (kw_contains "dist" kw || kw_contains "class_name" kw = false ->
      (exists call : CustomDistCall rng V,
          @Chi.__new__ rng _ V transforms_log name nu kw = Ok call
          /\ cd_name call = name
          /\ cd_dist_params call = [nu]
          /\ cd_class_name call = "Chi"%string
          /\ (forall k : string,
                 k <> "transform"%string ->
                 kw_get k (cd_kwargs call) = kw_get k kw)
          /\ kw_get "transform" (cd_kwargs call)
             = match kw_get "transform" kw with
               | Some t => Some t
               | None =>
                   if kw_contains "observed" kw then None else Some transforms_log
               end)
      /\ @Maxwell.__new__ rng _ V name a kw
         = Ok (CustomDist name [a] Maxwell.maxwell_dist "Maxwell"%string kw)).
Proof.
  assert (hkeys :
    kw_contains "dist"
      (if negb (kw_contains "observed" kw)
       then setdefault "transform" transforms_log kw else kw)
    || kw_contains "class_name"
         (if negb (kw_contains "observed" kw)
          then setdefault "transform" transforms_log kw else kw)
    = kw_contains "dist" kw || kw_contains "class_name" kw).
  { unfold kw_contains at 1 3.
    rewrite !chi_kwargs_other_keys by discriminate. reflexivity. }
  split.
  - intros hdup. split.
    + unfold Chi.__new__, CustomDist_new. cbv zeta. rewrite hkeys. now rewrite hdup.
    + unfold Maxwell.__new__, CustomDist_new. now rewrite hdup.
  - intros hnew. split.
    + eexists. split.
      * unfold Chi.__new__, CustomDist_new. cbv zeta. rewrite hkeys.
        rewrite hnew. reflexivity.
      * cbn [cd_name cd_dist_params cd_class_name cd_kwargs].
        split; [reflexivity | split; [reflexivity | split; [reflexivity | split]]].
        -- intros k hk. now apply chi_kwargs_other_keys.
        -- apply chi_kwargs_transform.
    + unfold Maxwell.__new__, CustomDist_new. now rewrite hnew.
Qed.

(** ** Location and scale *)






